(** * Verification of spack's post-install hook [check_dynamic_linking_elf]

    A shallow embedding of [lib/spack/spack/hooks/check_dynamic_linking_elf.py]:
    the compatibility judge, the system-library allowlist, the per-file
    resolution engine ([ResolveSharedElfLibDepsVisitor.visit_file]) and the
    reporter ([post_install]), with the Python built-ins they call
    ([bytes.split], [bytes.replace], [os.path], UTF-8 decoding, [fnmatch],
    insertion-ordered dictionaries, [io.StringIO]) written out. *)

From Stdlib Require Import List String Ascii NArith ZArith Bool Lia.
Import ListNotations.

(** ** Python values *)

(** [bytes]: a sequence of 8-bit values. *)
Definition bytes : Type := list ascii.

(** [str]: a sequence of Unicode code points. *)
Definition str : Type := list N.

(** A bytes literal, [b"libc.so.6"]. *)
Definition b (s : string) : bytes := list_ascii_of_string s.

(** A str literal made of ASCII characters. *)
Definition u (s : string) : str := map N_of_ascii (list_ascii_of_string s).

Definition byte_eqb (x y : ascii) : bool := Ascii.eqb x y.

Fixpoint bytes_eqb (x y : bytes) : bool :=
  match x, y with
  | [], [] => true
  | c :: x', d :: y' => byte_eqb c d && bytes_eqb x' y'
  | _, _ => false
  end.

(** Equality of bytes objects is decidable. *)
Definition bytes_dec : forall x y : bytes, {x = y} + {x <> y} :=
  list_eq_dec ascii_dec.

Fixpoint str_eqb (x y : str) : bool :=
  match x, y with
  | [], [] => true
  | c :: x', d :: y' => N.eqb c d && str_eqb x' y'
  | _, _ => false
  end.

(** The exceptions that occur in the hook and in the calls it makes. *)
Inductive exn : Type :=
| OSError
| ElfParsingError
| UnicodeDecodeError
| UnicodeEncodeError
| TypeError
| CannotLocateSharedLibraries (message : str).

(** What the hook does to the outside: files it opens and text it sends to
    [tty.error]. *)
Inductive event : Type :=
| Open (path : bytes)
| TtyError (message : str).

(** ** Computations: a log of events and either an exception or a value *)

Definition M (A : Type) : Type := (list event * (exn + A))%type.

Definition ret {A} (a : A) : M A := ([], inr a).

Definition raise {A} (e : exn) : M A := ([], inl e).

Definition emit (ev : event) : M unit := ([ev], inr tt).

Definition lift {A} (r : exn + A) : M A := ([], r).

Definition bind {A B} (m : M A) (f : A -> M B) : M B :=
  match m with
  | (l, inl e) => (l, inl e)
  | (l, inr a) => let (l', r) := f a in (l ++ l', r)
  end.

(** [try: m except: h], where [h] re-raises what its clause does not name. *)
Definition try_except {A} (m : M A) (h : exn -> M A) : M A :=
  match m with
  | (l, inl e) => let (l', r) := h e in (l ++ l', r)
  | (l, inr a) => (l, inr a)
  end.

Notation "x <- m ;; k" := (bind m (fun x => k))
  (at level 61, m at next level, right associativity).
Notation "' pat <- m ;; k" := (bind m (fun x => let 'pat := x in k))
  (at level 61, pat pattern, m at next level, right associativity).
Notation "m ;;; k" := (bind m (fun _ => k))
  (at level 61, right associativity).

Definition events {A} (m : M A) : list event := fst m.
Definition outcome {A} (m : M A) : exn + A := snd m.

(** ** Built-ins on bytes *)

Definition sep : ascii := "/"%char.

Definition is_sep (c : ascii) : bool := byte_eqb c sep.

(** [prefix in x] for a one-byte [prefix]. *)
Definition contains_byte (c : ascii) (x : bytes) : bool := existsb (byte_eqb c) x.

Fixpoint startswith (prefix x : bytes) : bool :=
  match prefix, x with
  | [], _ => true
  | c :: prefix', d :: x' => byte_eqb c d && startswith prefix' x'
  | _ :: _, [] => false
  end.

Definition endswith_sep (x : bytes) : bool :=
  match rev x with
  | c :: _ => is_sep c
  | [] => false
  end.

(** [x.split(c)] for a one-byte separator: every occurrence splits, so the
    result has one more piece than [x] has separators. *)
Fixpoint bytes_split (c : ascii) (x : bytes) : list bytes :=
  match x with
  | [] => [[]]
  | d :: x' =>
      if byte_eqb d c then [] :: bytes_split c x'
      else match bytes_split c x' with
           | piece :: pieces => (d :: piece) :: pieces
           | [] => [[d]]
           end
  end.

(** [x.replace(old, new)] for a non-empty [old]: occurrences are replaced
    from the left and do not overlap.  [skip] counts the bytes of an
    occurrence still to be dropped. *)
Fixpoint replace_from (old new : bytes) (skip : nat) (x : bytes) : bytes :=
  match x with
  | [] => []
  | c :: x' =>
      match skip with
      | S k => replace_from old new k x'
      | O =>
          if startswith old x
          then new ++ replace_from old new (List.length old - 1) x'
          else c :: replace_from old new 0 x'
      end
  end.

Definition bytes_replace (old new x : bytes) : bytes := replace_from old new 0 x.

(** Truth of a bytes or list object: non-empty. *)
Definition truthy {A} (x : list A) : bool :=
  match x with
  | [] => false
  | _ :: _ => true
  end.

(** ** [os.path] (posixpath) *)

Module os_path.

Definition isabs (s : bytes) : bool := startswith [sep] s.

(** [join(a, p)]: an absolute [p] replaces [a]; otherwise a separator is
    put between them unless [a] is empty or already ends with one. *)
Definition join (a p : bytes) : bytes :=
  if startswith [sep] p then p
  else if negb (truthy a) || endswith_sep a then a ++ p
  else a ++ sep :: p.

(** [p[:p.rfind(sep) + 1]] *)
Fixpoint head_of (p : bytes) : bytes :=
  match p with
  | [] => []
  | c :: p' =>
      if contains_byte sep p' then c :: head_of p'
      else if is_sep c then [c] else []
  end.

Fixpoint lstrip_sep (p : bytes) : bytes :=
  match p with
  | c :: p' => if is_sep c then lstrip_sep p' else p
  | [] => []
  end.

Definition rstrip_sep (p : bytes) : bytes := rev (lstrip_sep (rev p)).

Definition dirname (p : bytes) : bytes :=
  let head := head_of p in
  if truthy head && negb (forallb is_sep head) then rstrip_sep head else head.

(** The same [join] on [str] paths. *)
Definition usep : N := N_of_ascii sep.

Definition join_str (a p : str) : str :=
  match p with
  | c :: _ => if N.eqb c usep then p
              else match rev a with
                   | [] => a ++ p
                   | d :: _ => if N.eqb d usep then a ++ p else a ++ usep :: p
                   end
  | [] => match rev a with
          | [] => a ++ p
          | d :: _ => if N.eqb d usep then a ++ p else a ++ usep :: p
          end
  end.

End os_path.

(** ** UTF-8 *)

Module utf8.

Local Open Scope N_scope.

Definition byte_of (n : N) : ascii := ascii_of_N n.

(** The payload of a continuation byte whose value lies in [lo, hi]. *)
Definition continuation (lo hi : N) (c : ascii) : option N :=
  let n := N_of_ascii c in
  if (lo <=? n) && (n <=? hi) then Some (n - 128) else None.

(** The strict decoder of [bytes.decode("utf-8")]: [None] stands for
    UnicodeDecodeError.  Overlong forms, surrogates and values above
    U+10FFFF are malformed. *)
Fixpoint decode_opt (x : bytes) : option str :=
  match x with
  | [] => Some []
  | c0 :: x1 =>
      let n0 := N_of_ascii c0 in
      if n0 <? 128 then option_map (cons n0) (decode_opt x1)
      else if (194 <=? n0) && (n0 <=? 223) then
        match x1 with
        | c1 :: x2 =>
            match continuation 128 191 c1 with
            | Some n1 => option_map (cons ((n0 - 192) * 64 + n1)) (decode_opt x2)
            | None => None
            end
        | _ => None
        end
      else if (224 <=? n0) && (n0 <=? 239) then
        match x1 with
        | c1 :: c2 :: x3 =>
            let lo := if n0 =? 224 then 160 else 128 in
            let hi := if n0 =? 237 then 159 else 191 in
            match continuation lo hi c1, continuation 128 191 c2 with
            | Some n1, Some n2 =>
                option_map (cons ((n0 - 224) * 4096 + n1 * 64 + n2)) (decode_opt x3)
            | _, _ => None
            end
        | _ => None
        end
      else if (240 <=? n0) && (n0 <=? 244) then
        match x1 with
        | c1 :: c2 :: c3 :: x4 =>
            let lo := if n0 =? 240 then 144 else 128 in
            let hi := if n0 =? 244 then 143 else 191 in
            match continuation lo hi c1, continuation 128 191 c2,
                  continuation 128 191 c3 with
            | Some n1, Some n2, Some n3 =>
                option_map (cons ((n0 - 240) * 262144 + n1 * 4096 + n2 * 64 + n3))
                           (decode_opt x4)
            | _, _, _ => None
            end
        | _ => None
        end
      else None
  end.

Definition decode (x : bytes) : exn + str :=
  match decode_opt x with
  | Some s => inr s
  | None => inl UnicodeDecodeError
  end.

(** One code point as [str.encode("utf-8")] writes it; a surrogate has no
    encoding. *)
Definition encode_char (n : N) : option bytes :=
  if n <? 128 then Some [byte_of n]
  else if n <? 2048 then Some [byte_of (192 + n / 64); byte_of (128 + n mod 64)]
  else if n <? 65536 then
    if (55296 <=? n) && (n <=? 57343) then None
    else Some [byte_of (224 + n / 4096); byte_of (128 + (n / 64) mod 64);
               byte_of (128 + n mod 64)]
  else if n <? 1114112 then
    Some [byte_of (240 + n / 262144); byte_of (128 + (n / 4096) mod 64);
          byte_of (128 + (n / 64) mod 64); byte_of (128 + n mod 64)]
  else None.

Fixpoint encode_opt (s : str) : option bytes :=
  match s with
  | [] => Some []
  | n :: s' =>
      match encode_char n, encode_opt s' with
      | Some x, Some y => Some (x ++ y)
      | _, _ => None
      end
  end.

Definition encode (s : str) : exn + bytes :=
  match encode_opt s with
  | Some x => inr x
  | None => inl UnicodeEncodeError
  end.

End utf8.

(** ** [fnmatch.translate] and the compiled regular expression *)

Module fnmatch.

(** The pieces [fnmatch.translate] produces for the patterns of this
    file: [.*] for a star, [.] for a question mark, and an escaped literal
    for any other character.  No pattern of [ALLOW_UNRESOLVED] has a
    bracket expression, so that branch of [translate] is left out. *)
Inductive atom : Type :=
| AnyString
| AnyChar
| Literal (c : N).

Definition star : N := 42.
Definition question : N := 63.

Definition translate_char (c : N) : atom :=
  if N.eqb c star then AnyString
  else if N.eqb c question then AnyChar
  else Literal c.

(** [(?s:...)\Z]: the atoms in sequence, then the end of the text. *)
Definition translate (pat : str) : list atom := map translate_char pat.

End fnmatch.

Module re.

Import fnmatch.

(** A compiled alternation [p1|p2|...] of translated patterns. *)
Definition regex : Type := list (list atom).

(** Does [p], followed by the end of the text, match [s] from its start?
    Under the [s] flag the dot matches every character. *)
Fixpoint matches_atoms (p : list atom) (s : str) : bool :=
  match p with
  | [] => negb (truthy s)
  | Literal c :: p' =>
      match s with
      | d :: s' => N.eqb c d && matches_atoms p' s'
      | [] => false
      end
  | AnyChar :: p' =>
      match s with
      | _ :: s' => matches_atoms p' s'
      | [] => false
      end
  | AnyString :: p' =>
      (fix skip (t : str) : bool :=
         matches_atoms p' t ||
         match t with
         | _ :: t' => skip t'
         | [] => false
         end) s
  end.

(** [regex.match(s)] as a truth value: some alternative matches. *)
Definition match_ (r : regex) (s : str) : bool :=
  existsb (fun p => matches_atoms p s) r.

End re.

(** ** Insertion-ordered dictionaries *)

Section Dict.

Variables (K V : Type) (eqb : K -> K -> bool).

(** A Python [dict] as the list of its items in insertion order. *)
Definition dict : Type := list (K * V).

(** [d[k] = v]: an existing key keeps its place, a new one goes last. *)
Fixpoint dict_set (d : dict) (k : K) (v : V) : dict :=
  match d with
  | [] => [(k, v)]
  | (k', v') :: d' =>
      if eqb k' k then (k', v) :: d' else (k', v') :: dict_set d' k v
  end.

Fixpoint dict_get (d : dict) (k : K) : option V :=
  match d with
  | [] => None
  | (k', v') :: d' => if eqb k' k then Some v' else dict_get d' k
  end.

Definition dict_keys (d : dict) : list K := map fst d.

End Dict.

Arguments dict_set {K V} eqb d k v.
Arguments dict_get {K V} eqb d k.
Arguments dict_keys {K V} d.

(** ** The ELF descriptor of [spack.util.elf] *)

Module elf.

Record ElfHeader : Type := {
  e_type : Z;
  e_machine : Z
}.

Record ElfFile : Type := {
  is_64_bit : bool;
  is_little_endian : bool;
  elf_hdr : ElfHeader;
  has_needed : bool;
  dt_needed_strs : list bytes;
  has_rpath : bool;
  dt_rpath_str : bytes
}.

End elf.
Import elf.

(** Modelled from the spec: [llnl.util.lang.stable_partition], which splits
    a sequence into the items that satisfy the predicate and those that do
    not, preserving relative order within each group. *)
Definition stable_partition {A} (input : list A) (predicate_fn : A -> bool)
  : list A * list A :=
  (filter predicate_fn input, filter (fun x => negb (predicate_fn x)) input).

(** Patterns for names of libraries that are allowed to be unresolved. *)
Definition ALLOW_UNRESOLVED : list str :=
  map u
    [ "linux-vdso.so.*";
      "ld-musl-*.so.*";
      "ld-linux-*.so.*";
      "libc.so.*";
      "libdl.so.*";
      "libm.so.*";
      "libmemusage.so.*";
      "libmvec.so.*";
      "libnsl.so.*";
      "libnss_compat.so.*";
      "libnss_db.so.*";
      "libnss_dns.so.*";
      "libnss_files.so.*";
      "libnss_hesiod.so.*";
      "libpcprofile.so.*";
      "libpthread.so.*";
      "libresolv.so.*";
      "librt.so.*";
      "libSegFault.so.*";
      "libthread_db.so.*";
      "libutil.so.*";
      "libudev.so.*" ]%string.

(** The alternation of the translated patterns.  Each alternative ends at
    the end of the text, and [match] starts at its beginning. *)
Definition ALLOW_UNRESOLVED_REGEX : re.regex :=
  Eval cbv in map fnmatch.translate ALLOW_UNRESOLVED.

(** [should_be_resolved]: true if a library should be resolved in RPATHs. *)
Definition should_be_resolved (filename : bytes) : M bool :=
  try_except
    (text <- lift (utf8.decode filename) ;;
     ret (negb (re.match_ ALLOW_UNRESOLVED_REGEX text)))
    (fun e => match e with
              | UnicodeDecodeError => ret true
              | _ => raise e
              end).

Record Problem : Type := {
  resolved : dict bytes bytes;
  unresolved : list bytes;
  relative_rpaths : list bytes
}.

(** ** The environment of the hook *)

(** Modelled from the spec: an install tree as the tree walker of
    [llnl.util.filesystem] meets it, with real and symlinked files and
    directories told apart. *)
#[warnings="-register-all"]
Inductive dirent : Type :=
| RegularFile (name : str)
| SymlinkedFile (name : str)
| Directory (name : str) (children : list dirent)
| SymlinkedDirectory (name : str) (children : list dirent).

(** What the hook reads from outside this file: the file system, the ELF
    parser of [spack.util.elf] with its constant [ET_DYN], the install tree
    that [visit_directory_tree] finds under a prefix and the setting
    [config:shared_linking:strict]. *)
Record Env : Type := {
  file : Type;
  os_open : bytes -> exn + file;
  parse_elf : file -> bool -> bool -> exn + ElfFile;
  ET_DYN : Z;
  scandir : str -> list dirent;
  config_strict : bool
}.

Record Spec : Type := {
  external : bool;
  platform : str;
  prefix : str
}.

(** ** The hook *)

Section Hook.

Variable env : Env.

(** [open(path, "rb")] *)
Definition open_rb (path : bytes) : M (file env) :=
  emit (Open path) ;;; lift (os_open env path).

Definition is_compatible (parent child : ElfFile) : bool :=
  Z.eqb (e_type (elf_hdr child)) (ET_DYN env)
  && Bool.eqb (is_little_endian parent) (is_little_endian child)
  && Bool.eqb (is_64_bit parent) (is_64_bit child)
  && Z.eqb (e_machine (elf_hdr parent)) (e_machine (elf_hdr child)).

Definition candidate_matches (current_elf : ElfFile) (candidate_path : bytes)
  : M bool :=
  try_except
    (g <- open_rb candidate_path ;;
     child <- lift (parse_elf env g false false) ;;
     ret (is_compatible current_elf child))
    (fun e => match e with
              | OSError | ElfParsingError => ret false
              | _ => raise e
              end).

(** The inner loop of [visit_file], [for rpath in rpaths: ... break] with
    its [else]: the candidate that matched, or [None] when the loop ran
    to its end. *)
Fixpoint search_rpaths (parsed_elf : ElfFile) (lib : bytes) (rpaths : list bytes)
  : M (option bytes) :=
  match rpaths with
  | [] => ret None
  | rpath :: rpaths' =>
      let candidate := os_path.join rpath lib in
      found <- candidate_matches parsed_elf candidate ;;
      if found then ret (Some candidate)
      else search_rpaths parsed_elf lib rpaths'
  end.

(** [for lib in search_libs: ...], on the pair [resolved], [unresolved]. *)
Fixpoint resolve_search_libs (parsed_elf : ElfFile) (rpaths search_libs : list bytes)
    (resolved : dict bytes bytes) (unresolved : list bytes)
  : M (dict bytes bytes * list bytes) :=
  match search_libs with
  | [] => ret (resolved, unresolved)
  | lib :: search_libs' =>
      should <- should_be_resolved lib ;;
      if negb should
      then resolve_search_libs parsed_elf rpaths search_libs' resolved unresolved
      else
        hit <- search_rpaths parsed_elf lib rpaths ;;
        match hit with
        | Some candidate =>
            resolve_search_libs parsed_elf rpaths search_libs'
              (dict_set bytes_eqb resolved lib candidate) unresolved
        | None =>
            resolve_search_libs parsed_elf rpaths search_libs'
              resolved (unresolved ++ [lib])
        end
  end.

(** [for lib in direct_libs: ...]: check if directly opened libs are
    compatible. *)
Fixpoint check_direct_libs (parsed_elf : ElfFile) (direct_libs : list bytes)
    (resolved : dict bytes bytes) (unresolved : list bytes)
  : M (dict bytes bytes * list bytes) :=
  match direct_libs with
  | [] => ret (resolved, unresolved)
  | lib :: direct_libs' =>
      ok <- candidate_matches parsed_elf lib ;;
      if ok
      then check_direct_libs parsed_elf direct_libs'
             (dict_set bytes_eqb resolved lib lib) unresolved
      else check_direct_libs parsed_elf direct_libs'
             resolved (unresolved ++ [lib])
  end.

Definition ORIGIN : bytes := b "$ORIGIN".

(** The rpaths of [visit_file] before they are partitioned: split on the
    colon, empty paths removed, [$ORIGIN] interpolated. *)
Definition interpolated_rpaths (parsed_elf : ElfFile) (origin : bytes) : list bytes :=
  let rpaths :=
    if has_rpath parsed_elf then bytes_split ":"%char (dt_rpath_str parsed_elf) else [] in
  map (fun x => bytes_replace ORIGIN origin x) (filter (fun x => truthy x) rpaths).

(** The body of [visit_file] from the needed libs on: what it computes
    for an ELF file that has needed entries. *)
Definition resolve_needed (parsed_elf : ElfFile) (origin : bytes) : M Problem :=
  let needed_libs := dt_needed_strs parsed_elf in
  let rpaths := interpolated_rpaths parsed_elf origin in
  let '(rpaths, relative_rpaths) := stable_partition rpaths os_path.isabs in
  let '(direct_libs, search_libs) :=
    stable_partition needed_libs (fun x => contains_byte sep x) in
  let '(direct_libs, unresolved) := stable_partition direct_libs os_path.isabs in
  let resolved : dict bytes bytes := [] in
  '(resolved, unresolved) <-
    resolve_search_libs parsed_elf rpaths search_libs resolved unresolved ;;
  '(resolved, unresolved) <-
    check_direct_libs parsed_elf direct_libs resolved unresolved ;;
  ret {| resolved := resolved;
         unresolved := unresolved;
         relative_rpaths := relative_rpaths |}.

(** [ResolveSharedElfLibDepsVisitor.visit_file], on the visitor's
    [problems]. *)
Definition visit_file (root rel_path : str) (depth : nat)
    (problems : dict str Problem) : M (dict str Problem) :=
  path <- lift (utf8.encode (os_path.join_str root rel_path)) ;;
  let origin := os_path.dirname path in
  parsed <-
    try_except
      (f <- open_rb path ;;
       parsed_elf <- lift (parse_elf env f false true) ;;
       ret (Some parsed_elf))
      (fun e => match e with
                | OSError | ElfParsingError => ret None
                | _ => raise e
                end) ;;
  match parsed with
  | None => ret problems
  | Some parsed_elf =>
      if negb (has_needed parsed_elf) then ret problems
      else
        problem <- resolve_needed parsed_elf origin ;;
        if truthy (unresolved problem) || truthy (relative_rpaths problem)
        then ret (dict_set str_eqb problems rel_path problem)
        else ret problems
  end.

Definition visit_symlinked_file (root rel_path : str) (depth : nat)
    (problems : dict str Problem) : M (dict str Problem) :=
  ret problems.

Definition before_visit_dir (root rel_path : str) (depth : nat) : bool := true.

Definition before_visit_symlinked_dir (root rel_path : str) (depth : nat) : bool :=
  false.

End Hook.

(** ** The tree walker *)

Module BaseDirectoryVisitor.

(** Modelled from the spec: the visitor interface of
    [llnl.util.filesystem], with the four capabilities the walker asks
    for: handle a regular file, handle a symlinked file, decide whether
    to descend into a directory and into a symlinked directory.  [S] is
    the visitor's own state. *)
Class t (S : Type) : Type := {
  visit_file : str -> str -> nat -> S -> M S;
  visit_symlinked_file : str -> str -> nat -> S -> M S;
  before_visit_dir : str -> str -> nat -> bool;
  before_visit_symlinked_dir : str -> str -> nat -> bool
}.

End BaseDirectoryVisitor.

#[local] Instance ResolveSharedElfLibDepsVisitor (env : Env)
  : BaseDirectoryVisitor.t (dict str Problem) := {
  BaseDirectoryVisitor.visit_file := visit_file env;
  BaseDirectoryVisitor.visit_symlinked_file := visit_symlinked_file;
  BaseDirectoryVisitor.before_visit_dir := before_visit_dir;
  BaseDirectoryVisitor.before_visit_symlinked_dir := before_visit_symlinked_dir
}.

Section Walk.

Context {S : Type} (visitor : BaseDirectoryVisitor.t S).

(** Modelled from the spec: the walk of one entry of a directory, depth
    first, which hands files to the visitor and descends into a directory
    when the visitor says so. *)
Fixpoint visit_entry (root rel_path : str) (depth : nat) (entry : dirent) (state : S)
  {struct entry} : M S :=
  let visit_entries rel_dir :=
    fix visit_entries (entries : list dirent) (state : S) : M S :=
      match entries with
      | [] => ret state
      | child :: entries' =>
          state' <- visit_entry root rel_dir (Datatypes.S depth) child state ;;
          visit_entries entries' state'
      end in
  match entry with
  | RegularFile name =>
      BaseDirectoryVisitor.visit_file root (os_path.join_str rel_path name) depth state
  | SymlinkedFile name =>
      BaseDirectoryVisitor.visit_symlinked_file
        root (os_path.join_str rel_path name) depth state
  | Directory name children =>
      let rel_dir := os_path.join_str rel_path name in
      if BaseDirectoryVisitor.before_visit_dir root rel_dir depth
      then visit_entries rel_dir children state
      else ret state
  | SymlinkedDirectory name children =>
      let rel_dir := os_path.join_str rel_path name in
      if BaseDirectoryVisitor.before_visit_symlinked_dir root rel_dir depth
      then visit_entries rel_dir children state
      else ret state
  end.

Fixpoint visit_entries (root rel_path : str) (depth : nat) (entries : list dirent)
    (state : S) : M S :=
  match entries with
  | [] => ret state
  | entry :: entries' =>
      state' <- visit_entry root rel_path depth entry state ;;
      visit_entries root rel_path depth entries' state'
  end.

(** Modelled from the spec: [llnl.util.filesystem.visit_directory_tree],
    the walk of the tree found under [root]. *)
Definition visit_directory_tree (env : Env) (root : str) (state : S) : M S :=
  visit_entries root [] 0 (scandir env root) state.

End Walk.

(** ** The report *)

(** A value that is a [str] or a [bytes] object. *)
Inductive pyobj : Type :=
| Str (s : str)
| Bytes (x : bytes).

Definition nl : str := [10%N].

Definition hex_digit (n : N) : N :=
  if (n <? 10)%N then (48 + n)%N else (87 + n)%N.

(** One byte as [repr] of a bytes object shows it between [quote]s. *)
Definition repr_byte (quote : N) (c : ascii) : str :=
  let n := N_of_ascii c in
  if N.eqb n quote || N.eqb n 92 then [92; n]%N
  else if N.eqb n 9 then u "\t"
  else if N.eqb n 10 then u "\n"
  else if N.eqb n 13 then u "\r"
  else if (n <? 32)%N || (127 <=? n)%N
       then u "\x" ++ [hex_digit (n / 16); hex_digit (n mod 16)]%N
  else [n].

(** [repr(x)] of a bytes object: [b'...'], or [b"..."] when [x] has a
    single quote and no double quote. *)
Definition bytes_repr (x : bytes) : str :=
  let quote :=
    if contains_byte (ascii_of_N 39) x && negb (contains_byte (ascii_of_N 34) x)
    then 34%N else 39%N in
  u "b" ++ [quote] ++ flat_map (repr_byte quote) x ++ [quote].

(** A replacement field [{o}] of an f-string. *)
Definition format (o : pyobj) : str :=
  match o with
  | Str s => s
  | Bytes x => bytes_repr x
  end.

(** [io.StringIO.write], on the text written so far: only a [str] is
    accepted. *)
Definition write (output : str) (o : pyobj) : M str :=
  match o with
  | Str s => ret (output ++ s)
  | Bytes _ => raise TypeError
  end.

Definition maybe_decode (byte_str : bytes) : M pyobj :=
  try_except
    (s <- lift (utf8.decode byte_str) ;; ret (Str s))
    (fun e => match e with
              | UnicodeDecodeError => ret (Bytes byte_str)
              | _ => raise e
              end).

(** [for needed, full_path in problem.resolved.items(): ...] *)
Fixpoint write_resolved (items : list (bytes * bytes)) (output : str) : M str :=
  match items with
  | [] => ret output
  | (needed, full_path) :: items' =>
      output <- write output (Str (u "        ")) ;;
      output <-
        (if bytes_eqb needed full_path
         then o <- maybe_decode needed ;; write output o
         else
           n <- maybe_decode needed ;;
           p <- maybe_decode full_path ;;
           write output (Str (format n ++ u " => " ++ format p))) ;;
      output <- write output (Str nl) ;;
      write_resolved items' output
  end.

(** [for not_found in problem.unresolved: ...] *)
Fixpoint write_unresolved (names : list bytes) (output : str) : M str :=
  match names with
  | [] => ret output
  | not_found :: names' =>
      o <- maybe_decode not_found ;;
      output <- write output (Str (u "        " ++ format o ++ u " => not found" ++ nl)) ;;
      write_unresolved names' output
  end.

(** [for path, problem in visitor.problems.items(): ...] *)
Fixpoint write_problems (items : list (str * Problem)) (output : str) : M str :=
  match items with
  | [] => ret output
  | (path, problem) :: items' =>
      output <- write output (Str path) ;;
      output <- write output (Str nl) ;;
      output <- write_resolved (resolved problem) output ;;
      output <- write_unresolved (unresolved problem) output ;;
      output <- write output (Str nl) ;;
      write_problems items' output
  end.

Definition header : str :=
  u "Not all executables/libraries can resolve their dependencies:" ++ nl.

(** What [post_install] does once the visitor has its [problems]. *)
Definition report (env : Env) (problems : dict str Problem) : M unit :=
  if negb (truthy problems) then ret tt
  else
    output <- write [] (Str header) ;;
    output <- write_problems problems output ;;
    if config_strict env
    then raise (CannotLocateSharedLibraries output)
    else emit (TtyError output).

Definition post_install (env : Env) (spec : Spec) (explicit : bool) : M unit :=
  if external spec || negb (existsb (str_eqb (platform spec)) [u "linux"; u "freebsd"])
  then ret tt
  else
    problems <-
      visit_directory_tree (ResolveSharedElfLibDepsVisitor env) env (prefix spec) [] ;;
    report env problems.

(** ** Pure readings of the effectful functions *)

(** The exceptions that the [except] clauses around [open] and [parse_elf]
    name. *)
Definition caught (e : exn) : bool :=
  match e with
  | OSError | ElfParsingError => true
  | _ => false
  end.

(** An environment in which opening and parsing fail only in the two ways
    the parser's interface gives: an I/O failure or a parse error. *)
Definition well_behaved (env : Env) : Prop :=
  (forall path e, os_open env path = inl e -> caught e = true) /\
  (forall f interpreter dynamic_section e,
      parse_elf env f interpreter dynamic_section = inl e -> caught e = true).

(** Whether the file at [path] is there, parses and is compatible. *)
Definition usable (env : Env) (current_elf : ElfFile) (path : bytes) : bool :=
  match os_open env path with
  | inr g =>
      match parse_elf env g false false with
      | inr child => is_compatible env current_elf child
      | inl _ => false
      end
  | inl _ => false
  end.

(** Whether [filename] is outside the allowlist. *)
Definition wanted (filename : bytes) : bool :=
  match utf8.decode_opt filename with
  | Some text => negb (re.match_ ALLOW_UNRESOLVED_REGEX text)
  | None => true
  end.

(** The first candidate under [rpaths] that is usable. *)
Definition first_usable (env : Env) (current_elf : ElfFile) (rpaths : list bytes)
    (lib : bytes) : option bytes :=
  find (usable env current_elf) (map (fun rpath => os_path.join rpath lib) rpaths).

(** The three groups of needed libraries and the two groups of rpaths of a
    file, as [visit_file] partitions them. *)
Definition search_libs_of (parsed_elf : ElfFile) : list bytes :=
  filter (fun x => negb (contains_byte sep x)) (dt_needed_strs parsed_elf).

Definition direct_libs_of (parsed_elf : ElfFile) : list bytes :=
  filter os_path.isabs (filter (contains_byte sep) (dt_needed_strs parsed_elf)).

Definition relative_direct_libs_of (parsed_elf : ElfFile) : list bytes :=
  filter (fun x => negb (os_path.isabs x))
         (filter (contains_byte sep) (dt_needed_strs parsed_elf)).

Definition absolute_rpaths_of (parsed_elf : ElfFile) (origin : bytes) : list bytes :=
  filter os_path.isabs (interpolated_rpaths parsed_elf origin).

Definition relative_rpaths_of (parsed_elf : ElfFile) (origin : bytes) : list bytes :=
  filter (fun x => negb (os_path.isabs x)) (interpolated_rpaths parsed_elf origin).

(** Whether [lib] must be resolved and no candidate under [rpaths] is
    usable. *)
Definition search_fails (env : Env) (parsed_elf : ElfFile) (rpaths : list bytes)
    (lib : bytes) : bool :=
  wanted lib &&
  match first_usable env parsed_elf rpaths lib with
  | Some _ => false
  | None => true
  end.

(** The by-search names that no rpath resolves, and the direct absolute
    references that do not validate. *)
Definition failed_search_libs (env : Env) (parsed_elf : ElfFile) (origin : bytes)
  : list bytes :=
  filter (search_fails env parsed_elf (absolute_rpaths_of parsed_elf origin))
         (search_libs_of parsed_elf).

Definition failed_direct_libs (env : Env) (parsed_elf : ElfFile) : list bytes :=
  filter (fun lib => negb (usable env parsed_elf lib)) (direct_libs_of parsed_elf).

(** The candidates that [search_rpaths] opens: those up to the first usable
    one. *)
Fixpoint probes (env : Env) (current_elf : ElfFile) (lib : bytes) (rpaths : list bytes)
  : list bytes :=
  match rpaths with
  | [] => []
  | rpath :: rpaths' =>
      let candidate := os_path.join rpath lib in
      candidate :: if usable env current_elf candidate then []
                   else probes env current_elf lib rpaths'
  end.

(** What the loop over [search_libs] leaves in [resolved] and
    [unresolved], and what it opens. *)
Fixpoint searched (env : Env) (parsed_elf : ElfFile) (rpaths search_libs : list bytes)
    (resolved : dict bytes bytes) (unresolved : list bytes)
  : dict bytes bytes * list bytes :=
  match search_libs with
  | [] => (resolved, unresolved)
  | lib :: search_libs' =>
      if negb (wanted lib)
      then searched env parsed_elf rpaths search_libs' resolved unresolved
      else
        match first_usable env parsed_elf rpaths lib with
        | Some candidate =>
            searched env parsed_elf rpaths search_libs'
              (dict_set bytes_eqb resolved lib candidate) unresolved
        | None =>
            searched env parsed_elf rpaths search_libs' resolved (unresolved ++ [lib])
        end
  end.

Definition searched_paths (env : Env) (parsed_elf : ElfFile)
    (rpaths search_libs : list bytes) : list bytes :=
  flat_map (fun lib => if wanted lib then probes env parsed_elf lib rpaths else [])
           search_libs.

(** The same for the loop over [direct_libs]. *)
Fixpoint checked (env : Env) (parsed_elf : ElfFile) (direct_libs : list bytes)
    (resolved : dict bytes bytes) (unresolved : list bytes)
  : dict bytes bytes * list bytes :=
  match direct_libs with
  | [] => (resolved, unresolved)
  | lib :: direct_libs' =>
      if usable env parsed_elf lib
      then checked env parsed_elf direct_libs'
             (dict_set bytes_eqb resolved lib lib) unresolved
      else checked env parsed_elf direct_libs' resolved (unresolved ++ [lib])
  end.

(** The [Problem] that [visit_file] computes for a file with needed
    entries, and the paths it opens on the way. *)
Definition problem_of (env : Env) (parsed_elf : ElfFile) (origin : bytes) : Problem :=
  let rpaths := absolute_rpaths_of parsed_elf origin in
  let '(resolved, unresolved) :=
    searched env parsed_elf rpaths (search_libs_of parsed_elf)
             [] (relative_direct_libs_of parsed_elf) in
  let '(resolved, unresolved) :=
    checked env parsed_elf (direct_libs_of parsed_elf) resolved unresolved in
  {| resolved := resolved;
     unresolved := unresolved;
     relative_rpaths := relative_rpaths_of parsed_elf origin |}.

Definition probed_paths (env : Env) (parsed_elf : ElfFile) (origin : bytes)
  : list bytes :=
  searched_paths env parsed_elf (absolute_rpaths_of parsed_elf origin)
                 (search_libs_of parsed_elf)
    ++ direct_libs_of parsed_elf.

(** The descriptor that [visit_file] gets for the file at [path], if the
    file opens and parses. *)
Definition parsed_at (env : Env) (path : bytes) : option ElfFile :=
  match os_open env path with
  | inr f =>
      match parse_elf env f false true with
      | inr parsed_elf => Some parsed_elf
      | inl _ => None
      end
  | inl _ => None
  end.

(** What [visit_file] leaves in [problems] once it has the [Problem] of the
    file. *)
Definition record_problem (problems : dict str Problem) (rel_path : str)
    (problem : Problem) : dict str Problem :=
  if truthy (unresolved problem) || truthy (relative_rpaths problem)
  then dict_set str_eqb problems rel_path problem
  else problems.


(** The reading of the claim on direct references: each needed entry with
    a separator is opened at its own path, and is in [unresolved] when it
    does not validate. *)
Definition direct_always_validated (env : Env) (parsed_elf : ElfFile)
    (log : list event) (problem : Problem) : Prop :=
  forall lib,
    In lib (dt_needed_strs parsed_elf) ->
    contains_byte sep lib = true ->
    In (Open lib) log /\
    (usable env parsed_elf lib = false -> In lib (unresolved problem)).

(** Every library of the report that resolved to itself has a name that is
    UTF-8. *)
Definition self_resolved_decodable (problems : dict str Problem) : Prop :=
  forall path problem needed,
    In (path, problem) problems ->
    In (needed, needed) (resolved problem) ->
    utf8.decode_opt needed <> None.

(** [x] occurs before [y] in [l]. *)
Definition precedes {A} (x y : A) (l : list A) : Prop :=
  exists l1 l2 l3, l = l1 ++ x :: l2 ++ y :: l3.

(** The order of [unresolved] as the spec's steps 5, 6 and 7 give it:
    relative direct references, then failed absolute direct references,
    then failed by-search names. *)
Definition spec_step_order (env : Env) (parsed_elf : ElfFile) (origin : bytes)
    (problem : Problem) : Prop :=
  unresolved problem =
    relative_direct_libs_of parsed_elf
      ++ failed_direct_libs env parsed_elf
      ++ failed_search_libs env parsed_elf origin.

(** The text-level reading of the allowlist: a glob pattern anchored to the
    full name. *)
Inductive glob_matches : list fnmatch.atom -> str -> Prop :=
| glob_end : glob_matches [] []
| glob_literal c p s : glob_matches p s -> glob_matches (fnmatch.Literal c :: p) (c :: s)
| glob_any_char c p s : glob_matches p s -> glob_matches (fnmatch.AnyChar :: p) (c :: s)
| glob_star_stop p s : glob_matches p s -> glob_matches (fnmatch.AnyString :: p) s
| glob_star_step c p s :
    glob_matches (fnmatch.AnyString :: p) s ->
    glob_matches (fnmatch.AnyString :: p) (c :: s).

Definition allowlisted (text : str) : Prop :=
  exists pat, In pat ALLOW_UNRESOLVED /\ glob_matches (fnmatch.translate pat) text.

(** ** The text of the report *)

(** What an f-string shows for [maybe_decode(x)]: the text of [x], or the
    [repr] of the bytes when [x] is not UTF-8. *)
Definition shown (x : bytes) : str :=
  match utf8.decode_opt x with
  | Some s => s
  | None => bytes_repr x
  end.

(** The line of one item of [resolved]. *)
Definition resolved_line (item : bytes * bytes) : str :=
  let (needed, full_path) := item in
  u "        "
    ++ (if bytes_eqb needed full_path then shown needed
        else shown needed ++ u " => " ++ shown full_path)
    ++ nl.

(** The line of one element of [unresolved]. *)
Definition unresolved_line (not_found : bytes) : str :=
  u "        " ++ shown not_found ++ u " => not found" ++ nl.

(** The block of one file. *)
Definition block (entry : str * Problem) : str :=
  let (path, problem) := entry in
  path ++ nl
    ++ flat_map resolved_line (resolved problem)
    ++ flat_map unresolved_line (unresolved problem)
    ++ nl.

Definition report_text (problems : dict str Problem) : str :=
  header ++ flat_map block problems.

(** Whether an item of [resolved] is a library that resolved to itself
    under a name that is not UTF-8. *)
Definition unwritable (item : bytes * bytes) : bool :=
  let (needed, full_path) := item in
  bytes_eqb needed full_path &&
  match utf8.decode_opt needed with
  | Some _ => false
  | None => true
  end.

Definition has_unwritable (problems : dict str Problem) : bool :=
  existsb (fun entry => existsb unwritable (resolved (snd entry))) problems.

(** ** Install trees *)

(** Induction on an install tree, with the property known for the children
    of a directory. *)
Section DirentInduction.

Variable P : dirent -> Prop.
Hypothesis Hfile : forall name, P (RegularFile name).
Hypothesis Hlink : forall name, P (SymlinkedFile name).
Hypothesis Hdir :
  forall name children, Forall P children -> P (Directory name children).
Hypothesis Hlinkdir :
  forall name children, Forall P children -> P (SymlinkedDirectory name children).

Fixpoint dirent_nested_ind (entry : dirent) : P entry :=
  let children_ind :=
    fix children_ind (entries : list dirent) : Forall P entries :=
      match entries with
      | [] => Forall_nil P
      | child :: entries' =>
          Forall_cons child (dirent_nested_ind child) (children_ind entries')
      end in
  match entry with
  | RegularFile name => Hfile name
  | SymlinkedFile name => Hlink name
  | Directory name children => Hdir name children (children_ind children)
  | SymlinkedDirectory name children =>
      Hlinkdir name children (children_ind children)
  end.

End DirentInduction.

(** The tree without its symlinked files and symlinked directories. *)
Fixpoint without_symlinks (entry : dirent) : list dirent :=
  match entry with
  | RegularFile name => [RegularFile name]
  | SymlinkedFile _ => []
  | Directory name children =>
      [Directory name (flat_map without_symlinks children)]
  | SymlinkedDirectory _ _ => []
  end.

(** ** The package [py-pylint] *)

Module py_pylint.

(** The regular expressions that the pattern of this package needs: a
    character, a dot, and either of them under a star. *)
Inductive item : Type :=
| Char (c : N)
| Dot
| StarChar (c : N)
| StarDot.

Definition dot : N := 46.
Definition newline : N := 10.

(** [re.compile] on a pattern made of plain characters, dots and stars. *)
Fixpoint compile (pattern : str) : list item :=
  match pattern with
  | [] => []
  | c :: rest =>
      match rest with
      | d :: rest' =>
          if N.eqb d fnmatch.star
          then (if N.eqb c dot then StarDot else StarChar c) :: compile rest'
          else (if N.eqb c dot then Dot else Char c) :: compile rest
      | [] => [if N.eqb c dot then Dot else Char c]
      end
  end.

(** Whether the dot matches [c]: without the [s] flag, anything but a
    newline. *)
Definition dot_matches (c : N) : bool := negb (N.eqb c newline).

(** [re.match]: does the pattern match at the start of [s]?  The text may
    go on after the match. *)
Fixpoint matches (p : list item) (s : str) : bool :=
  match p with
  | [] => true
  | Char c :: p' =>
      match s with
      | d :: s' => N.eqb c d && matches p' s'
      | [] => false
      end
  | Dot :: p' =>
      match s with
      | d :: s' => dot_matches d && matches p' s'
      | [] => false
      end
  | StarChar c :: p' =>
      (fix repeat (t : str) : bool :=
         matches p' t ||
         match t with
         | d :: t' => N.eqb c d && repeat t'
         | [] => false
         end) s
  | StarDot :: p' =>
      (fix repeat (t : str) : bool :=
         matches p' t ||
         match t with
         | d :: t' => dot_matches d && repeat t'
         | [] => false
         end) s
  end.

(** [lambda f: re.match(r"site.py*", f)], as a truth value. *)
Definition ignore (f : str) : bool := matches (compile (u "site.py*")) f.

End py_pylint.

(** ** Test fixtures *)

Module Fixture.

Definition EM_X86_64 : Z := 62.
Definition EM_386 : Z := 3.

Definition shared_object (is64 : bool) (machine : Z) : ElfFile :=
  {| is_64_bit := is64;
     is_little_endian := true;
     elf_hdr := {| e_type := 3; e_machine := machine |};
     has_needed := false;
     dt_needed_strs := [];
     has_rpath := false;
     dt_rpath_str := [] |}.

Definition lib64 : ElfFile := shared_object true EM_X86_64.
Definition lib32 : ElfFile := shared_object false EM_386.

(** A 64-bit little-endian executable with the given needed entries and
    RPATH. *)
Definition program (needed : list bytes) (rpath : option bytes) : ElfFile :=
  {| is_64_bit := true;
     is_little_endian := true;
     elf_hdr := {| e_type := 2; e_machine := EM_X86_64 |};
     has_needed := truthy needed;
     dt_needed_strs := needed;
     has_rpath := match rpath with Some _ => true | None => false end;
     dt_rpath_str := match rpath with Some r => r | None => [] end |}.

Fixpoint lookup (files : list (bytes * option ElfFile)) (path : bytes)
  : exn + option ElfFile :=
  match files with
  | [] => inl OSError
  | (p, f) :: files' => if bytes_eqb p path then inr f else lookup files' path
  end.

(** A file system given by a table from paths to files: a file is an ELF
    file with its descriptor or something the parser rejects, and a path
    outside the table cannot be opened. *)
Definition env_of (files : list (bytes * option ElfFile)) (tree : list dirent)
    (strict : bool) : Env :=
  {| file := option ElfFile;
     os_open := lookup files;
     parse_elf := fun f _ _ =>
                    match f with
                    | Some parsed => inr parsed
                    | None => inl ElfParsingError
                    end;
     ET_DYN := 3;
     scandir := fun _ => tree;
     config_strict := strict |}.

Definition linux (root : string) : Spec :=
  {| external := false; platform := u "linux"; prefix := u root |}.

Definition app_path : bytes := b "/opt/pkg/bin/app".
Definition app_origin : bytes := b "/opt/pkg/bin".
Definition app_tree : list dirent := [Directory (u "bin") [RegularFile (u "app")]].

(** Two search paths that both hold a compatible [libx.so]. *)
Definition two_paths_app : ElfFile := program [b "libx.so"] (Some (b "/A:/B")).
Definition two_paths_env : Env :=
  env_of [(app_path, Some two_paths_app);
          (b "/A/libx.so", Some lib64);
          (b "/B/libx.so", Some lib64)] app_tree true.

(** A direct absolute reference and a bare name, both missing. *)
Definition missing_app : ElfFile :=
  program [b "/abs/missing.so"; b "libmissing.so"] None.
Definition missing_env : Env := env_of [(app_path, Some missing_app)] app_tree true.

(** Direct references whose basename is on the allowlist: a relative one
    that is there and compatible, an absolute one that is a 32-bit
    library. *)
Definition direct_app : ElfFile :=
  program [b "sub/libc.so.6"; b "/usr/lib/libc.so.6"] None.
Definition direct_env : Env :=
  env_of [(app_path, Some direct_app);
          (b "sub/libc.so.6", Some lib64);
          (b "/usr/lib/libc.so.6", Some lib32)] app_tree true.

(** Every library resolves, and the RPATH has the relative entry [lib]. *)
Definition relative_rpath_app : ElfFile :=
  program [b "libfoo.so"; b "libc.so.6"] (Some (b "$ORIGIN/../lib::lib")).
Definition relative_rpath_env : Env :=
  env_of [(app_path, Some relative_rpath_app);
          (b "/opt/pkg/bin/../lib/libfoo.so", Some lib64)] app_tree true.

(** A file without needed entries, and one that is not an ELF file. *)
Definition static_env : Env :=
  env_of [(app_path, Some lib64); (b "/opt/pkg/README", None)]
         [Directory (u "bin") [RegularFile (u "app")]; RegularFile (u "README")] true.

(** A validated direct reference whose name is not UTF-8, next to a
    missing library. *)
Definition undecodable_lib : bytes := b "/opt/" ++ ["255"%char] ++ b "/libz.so".
Definition undecodable_app : ElfFile :=
  program [undecodable_lib; b "libmissing.so"] None.
Definition undecodable_env (strict : bool) : Env :=
  env_of [(app_path, Some undecodable_app); (undecodable_lib, Some lib64)]
         app_tree strict.

(** Needed entries that repeat a name. *)
Definition repeated_app : ElfFile :=
  program [b "libx.so"; b "libmissing.so"; b "libx.so"; b "/abs/missing.so";
           b "libmissing.so"; b "/abs/missing.so"]
          (Some (b "/A:/B")).
Definition repeated_env : Env :=
  env_of [(app_path, Some repeated_app);
          (b "/A/libx.so", Some lib64);
          (b "/B/libx.so", Some lib64)] app_tree true.

(** A parser that fails with an exception that is neither an I/O failure
    nor a parse error. *)
Definition broken_parser_env : Env :=
  {| file := unit;
     os_open := fun _ => inr tt;
     parse_elf := fun _ _ _ => inl TypeError;
     ET_DYN := 3;
     scandir := fun _ => app_tree;
     config_strict := true |}.

(** A file name with a lone surrogate, as the file system gives for a name
    that is not UTF-8. *)
Definition surrogate_name : str := u "lib" ++ [56575%N] ++ u ".so".

(** A program without RPATH. *)
Definition no_rpath_app : ElfFile :=
  program [b "libfoo.so"; b "libc.so.6"; b "/opt/pkg/lib/libbar.so"] None.
Definition no_rpath_env : Env :=
  env_of [(app_path, Some no_rpath_app);
          (b "/opt/pkg/lib/libbar.so", Some lib64);
          (b "libfoo.so", Some lib64)] app_tree false.

(** An install tree with symlinks beside the program. *)
Definition linked_tree : list dirent :=
  [SymlinkedFile (u "app-link");
   Directory (u "bin") [RegularFile (u "app"); SymlinkedFile (u "app2")];
   SymlinkedDirectory (u "bin2") [RegularFile (u "app")]].

(** A report that already has the entry of another file. *)
Definition earlier_problems : dict str Problem :=
  [(u "bin/other",
    {| resolved := []; unresolved := [b "liby.so"]; relative_rpaths := [] |})].

(** The file of [surrogate_name] under [/opt/pkg], by the bytes of its
    name: an ELF file that needs two missing libraries, beside [bin/app]. *)
Definition surrogate_file_path : bytes := b "/opt/pkg/lib" ++ ["255"%char] ++ b ".so".
Definition surrogate_env : Env :=
  env_of [(app_path, Some missing_app); (surrogate_file_path, Some missing_app)]
         [Directory (u "bin") [RegularFile (u "app")]; RegularFile surrogate_name]
         true.

End Fixture.

(** * Properties *)

(** ** Equality tests *)

Lemma byte_eqb_eq (x y : ascii) : byte_eqb x y = true <-> x = y.
Proof. apply Ascii.eqb_eq. Qed.

Lemma bytes_eqb_eq (x y : bytes) : bytes_eqb x y = true <-> x = y.
Proof.
  revert y; induction x as [|c x IH]; intros [|d y]; simpl; try (split; congruence).
  rewrite andb_true_iff, byte_eqb_eq, IH. split.
  - intros [-> ->]; reflexivity.
  - intros H; injection H; auto.
Qed.

Lemma bytes_eqb_refl (x : bytes) : bytes_eqb x x = true.
Proof. apply bytes_eqb_eq; reflexivity. Qed.

Lemma bytes_eqb_neq (x y : bytes) : bytes_eqb x y = false <-> x <> y.
Proof.
  rewrite <- bytes_eqb_eq. destruct (bytes_eqb x y); split; congruence.
Qed.

Lemma str_eqb_eq (x y : str) : str_eqb x y = true <-> x = y.
Proof.
  revert y; induction x as [|c x IH]; intros [|d y]; simpl; try (split; congruence).
  rewrite andb_true_iff, N.eqb_eq, IH. split.
  - intros [-> ->]; reflexivity.
  - intros H; injection H; auto.
Qed.

Lemma truthy_false {A} (l : list A) : truthy l = false <-> l = [].
Proof. destruct l; simpl; split; congruence. Qed.

Lemma truthy_true {A} (l : list A) : truthy l = true <-> l <> [].
Proof. destruct l; simpl; split; congruence. Qed.

(** ** Dictionaries *)

Lemma dict_get_set (d : dict bytes bytes) (k v k' : bytes) :
  dict_get bytes_eqb (dict_set bytes_eqb d k v) k' =
  if bytes_eqb k k' then Some v else dict_get bytes_eqb d k'.
Proof.
  induction d as [|[k0 v0] d IH]; simpl.
  - reflexivity.
  - destruct (bytes_eqb k0 k) eqn:E0; simpl.
    + apply bytes_eqb_eq in E0; subst k0.
      destruct (bytes_eqb k k'); reflexivity.
    + destruct (bytes_eqb k0 k') eqn:E1.
      * apply bytes_eqb_eq in E1; subst k0.
        destruct (bytes_eqb k k') eqn:E2; [|reflexivity].
        apply bytes_eqb_eq in E2; subst k'.
        rewrite bytes_eqb_refl in E0; discriminate.
      * exact IH.
Qed.

Lemma dict_keys_get (d : dict bytes bytes) (k : bytes) :
  In k (dict_keys d) <-> dict_get bytes_eqb d k <> None.
Proof.
  induction d as [|[k0 v0] d IH]; simpl.
  - split; [tauto | congruence].
  - destruct (bytes_eqb k0 k) eqn:E.
    + apply bytes_eqb_eq in E. split; [congruence | auto].
    + apply bytes_eqb_neq in E. rewrite <- IH. tauto.
Qed.

Lemma dict_keys_set_str {V} (d : dict str V) (k : str) (v : V) (k' : str) :
  In k' (dict_keys (dict_set str_eqb d k v)) <-> k' = k \/ In k' (dict_keys d).
Proof.
  induction d as [|[k0 v0] d IH]; simpl.
  - intuition.
  - destruct (str_eqb k0 k) eqn:E; simpl.
    + apply str_eqb_eq in E; subst k0. intuition.
    + rewrite IH. intuition.
Qed.

(** ** The compatibility judge *)

(** C2: [is_compatible parent child] holds exactly when the child is a
    shared object ([ET_DYN]) and parent and child agree on endianness, on
    bit width and on the machine code. *)
Theorem is_compatible_iff (env : Env) (parent child : ElfFile) :
  is_compatible env parent child = true <->
  e_type (elf_hdr child) = ET_DYN env /\
  is_little_endian parent = is_little_endian child /\
  is_64_bit parent = is_64_bit child /\
  e_machine (elf_hdr parent) = e_machine (elf_hdr child).
Proof.
  unfold is_compatible.
  rewrite !andb_true_iff, !Z.eqb_eq, !Bool.eqb_true_iff. tauto.
Qed.

(** ** Probing a candidate *)

Lemma candidate_matches_events (env : Env) (current_elf : ElfFile) (path : bytes) :
  events (candidate_matches env current_elf path) = [Open path].
Proof.
  unfold candidate_matches, open_rb, emit, lift, events; simpl.
  destruct (os_open env path) as [e|g]; simpl.
  - destruct e; reflexivity.
  - destruct (parse_elf env g false false) as [e|child]; simpl.
    + destruct e; reflexivity.
    + reflexivity.
Qed.

Lemma candidate_matches_usable (env : Env) (current_elf : ElfFile) (path : bytes) :
  well_behaved env ->
  candidate_matches env current_elf path = ([Open path], inr (usable env current_elf path)).
Proof.
  intros [Hopen Hparse].
  unfold candidate_matches, usable, open_rb, emit, lift; simpl.
  destruct (os_open env path) as [e|g] eqn:Eo; simpl.
  - apply Hopen in Eo. destruct e; simpl in Eo; try discriminate; reflexivity.
  - destruct (parse_elf env g false false) as [e|child] eqn:Ep; simpl.
    + apply Hparse in Ep. destruct e; simpl in Ep; try discriminate; reflexivity.
    + reflexivity.
Qed.

(** C6: when the candidate cannot be opened (OSError), or is opened and
    does not parse as an ELF file (ElfParsingError, or an OSError while
    reading), [candidate_matches] returns False: the failure does not
    leave the probe. *)
Theorem candidate_matches_failure_is_false
    (env : Env) (current_elf : ElfFile) (candidate_path : bytes) :
  (os_open env candidate_path = inl OSError ->
   candidate_matches env current_elf candidate_path
   = ([Open candidate_path], inr false)) /\
  (forall g e,
      os_open env candidate_path = inr g ->
      parse_elf env g false false = inl e ->
      e = ElfParsingError \/ e = OSError ->
      candidate_matches env current_elf candidate_path
      = ([Open candidate_path], inr false)).
Proof.
  unfold candidate_matches, open_rb, emit, lift; simpl. split.
  - intros ->. reflexivity.
  - intros g e -> Hp [-> | ->]; simpl; rewrite Hp; reflexivity.
Qed.

(** ** The loops of [visit_file] in a well-behaved environment *)

Lemma should_be_resolved_wanted (filename : bytes) :
  should_be_resolved filename = ret (wanted filename).
Proof.
  unfold should_be_resolved, wanted, utf8.decode, lift, ret; simpl.
  destruct (utf8.decode_opt filename); reflexivity.
Qed.

Section WellBehaved.

Variable env : Env.
Hypothesis Hwb : well_behaved env.
Variable parsed_elf : ElfFile.

Lemma search_rpaths_pure (lib : bytes) (rpaths : list bytes) :
  search_rpaths env parsed_elf lib rpaths
  = (map Open (probes env parsed_elf lib rpaths),
     inr (first_usable env parsed_elf rpaths lib)).
Proof.
  unfold first_usable.
  induction rpaths as [|rpath rpaths IH]; simpl.
  - reflexivity.
  - rewrite (candidate_matches_usable env parsed_elf _ Hwb). simpl.
    destruct (usable env parsed_elf (os_path.join rpath lib)); simpl.
    + reflexivity.
    + rewrite IH. reflexivity.
Qed.

Lemma resolve_search_libs_pure (rpaths search_libs : list bytes)
    (res : dict bytes bytes) (unres : list bytes) :
  resolve_search_libs env parsed_elf rpaths search_libs res unres
  = (map Open (searched_paths env parsed_elf rpaths search_libs),
     inr (searched env parsed_elf rpaths search_libs res unres)).
Proof.
  revert res unres.
  induction search_libs as [|lib libs IH]; intros res unres; simpl.
  - reflexivity.
  - rewrite should_be_resolved_wanted. simpl.
    destruct (wanted lib); simpl.
    + rewrite search_rpaths_pure. simpl.
      destruct (first_usable env parsed_elf rpaths lib); rewrite IH;
        rewrite map_app; reflexivity.
    + rewrite IH. reflexivity.
Qed.

Lemma check_direct_libs_pure (direct_libs : list bytes)
    (res : dict bytes bytes) (unres : list bytes) :
  check_direct_libs env parsed_elf direct_libs res unres
  = (map Open direct_libs, inr (checked env parsed_elf direct_libs res unres)).
Proof.
  revert res unres.
  induction direct_libs as [|lib libs IH]; intros res unres; simpl.
  - reflexivity.
  - rewrite (candidate_matches_usable env parsed_elf _ Hwb). simpl.
    destruct (usable env parsed_elf lib); rewrite IH; reflexivity.
Qed.

Lemma resolve_needed_pure (origin : bytes) :
  resolve_needed env parsed_elf origin
  = (map Open (probed_paths env parsed_elf origin),
     inr (problem_of env parsed_elf origin)).
Proof.
  unfold resolve_needed, problem_of, probed_paths, stable_partition,
    absolute_rpaths_of, relative_rpaths_of, search_libs_of, direct_libs_of,
    relative_direct_libs_of.
  rewrite resolve_search_libs_pure. simpl.
  destruct (searched _ _ _ _ _ _) as [res unres].
  rewrite check_direct_libs_pure. simpl.
  destruct (checked _ _ _ _ _) as [res' unres'].
  unfold ret; simpl. rewrite map_app, app_nil_r. reflexivity.
Qed.

End WellBehaved.

(** ** What the loops leave behind *)

Section Loops.

Variable env : Env.
Variable parsed_elf : ElfFile.

Lemma searched_unresolved (rpaths libs : list bytes)
    (res : dict bytes bytes) (unres : list bytes) :
  snd (searched env parsed_elf rpaths libs res unres)
  = unres ++ filter (search_fails env parsed_elf rpaths) libs.
Proof.
  revert res unres.
  induction libs as [|lib libs IH]; intros res unres; simpl.
  - rewrite app_nil_r; reflexivity.
  - unfold search_fails at 1.
    destruct (wanted lib); simpl.
    + destruct (first_usable env parsed_elf rpaths lib); rewrite IH.
      * reflexivity.
      * rewrite <- app_assoc. reflexivity.
    + apply IH.
Qed.

Lemma searched_resolved (rpaths libs : list bytes)
    (res : dict bytes bytes) (unres : list bytes) (k : bytes) :
  dict_get bytes_eqb (fst (searched env parsed_elf rpaths libs res unres)) k
  = if existsb (bytes_eqb k) libs && wanted k
    then match first_usable env parsed_elf rpaths k with
         | Some candidate => Some candidate
         | None => dict_get bytes_eqb res k
         end
    else dict_get bytes_eqb res k.
Proof.
  revert res unres.
  induction libs as [|lib libs IH]; intros res unres; simpl.
  - reflexivity.
  - destruct (bytes_eqb k lib) eqn:Ek.
    + apply bytes_eqb_eq in Ek; subst lib. simpl.
      destruct (wanted k) eqn:Ew; simpl.
      * destruct (first_usable env parsed_elf rpaths k) as [c|] eqn:Ef;
          rewrite IH, ?Ew, ?Ef, ?dict_get_set, ?bytes_eqb_refl; simpl;
          destruct (existsb (bytes_eqb k) libs); reflexivity.
      * rewrite IH, ?Ew, ?andb_false_r. reflexivity.
    + simpl.
      assert (Hne : bytes_eqb lib k = false).
      { apply bytes_eqb_neq. apply bytes_eqb_neq in Ek. congruence. }
      destruct (wanted lib); simpl.
      * destruct (first_usable env parsed_elf rpaths lib); rewrite IH;
          rewrite ?dict_get_set, ?Hne; reflexivity.
      * apply IH.
Qed.

Lemma checked_unresolved (libs : list bytes)
    (res : dict bytes bytes) (unres : list bytes) :
  snd (checked env parsed_elf libs res unres)
  = unres ++ filter (fun lib => negb (usable env parsed_elf lib)) libs.
Proof.
  revert res unres.
  induction libs as [|lib libs IH]; intros res unres; simpl.
  - rewrite app_nil_r; reflexivity.
  - destruct (usable env parsed_elf lib); simpl; rewrite IH.
    + reflexivity.
    + rewrite <- app_assoc. reflexivity.
Qed.

Lemma checked_resolved (libs : list bytes)
    (res : dict bytes bytes) (unres : list bytes) (k : bytes) :
  dict_get bytes_eqb (fst (checked env parsed_elf libs res unres)) k
  = if existsb (bytes_eqb k) libs && usable env parsed_elf k
    then Some k
    else dict_get bytes_eqb res k.
Proof.
  revert res unres.
  induction libs as [|lib libs IH]; intros res unres; simpl.
  - reflexivity.
  - destruct (bytes_eqb k lib) eqn:Ek.
    + apply bytes_eqb_eq in Ek; subst lib. simpl.
      destruct (usable env parsed_elf k) eqn:Eu;
        rewrite IH, ?Eu, ?andb_false_r, ?dict_get_set, ?bytes_eqb_refl; simpl;
        destruct (existsb (bytes_eqb k) libs); reflexivity.
    + simpl.
      assert (Hne : bytes_eqb lib k = false).
      { apply bytes_eqb_neq. apply bytes_eqb_neq in Ek. congruence. }
      destruct (usable env parsed_elf lib); rewrite IH;
        rewrite ?dict_get_set, ?Hne; reflexivity.
Qed.

Lemma problem_of_unresolved (origin : bytes) :
  unresolved (problem_of env parsed_elf origin)
  = relative_direct_libs_of parsed_elf
      ++ failed_search_libs env parsed_elf origin
      ++ failed_direct_libs env parsed_elf.
Proof.
  unfold problem_of.
  pose proof (searched_unresolved (absolute_rpaths_of parsed_elf origin)
                (search_libs_of parsed_elf) [] (relative_direct_libs_of parsed_elf)) as Hs.
  destruct (searched _ _ _ _ _ _) as [res unres]. simpl in Hs.
  pose proof (checked_unresolved (direct_libs_of parsed_elf) res unres) as Hc.
  destruct (checked _ _ _ _ _) as [res' unres']. simpl in *.
  rewrite Hc, Hs, <- app_assoc. reflexivity.
Qed.

Lemma problem_of_resolved (origin k : bytes) :
  dict_get bytes_eqb (resolved (problem_of env parsed_elf origin)) k
  = if existsb (bytes_eqb k) (direct_libs_of parsed_elf) && usable env parsed_elf k
    then Some k
    else if existsb (bytes_eqb k) (search_libs_of parsed_elf) && wanted k
         then first_usable env parsed_elf (absolute_rpaths_of parsed_elf origin) k
         else None.
Proof.
  unfold problem_of.
  pose proof (searched_resolved (absolute_rpaths_of parsed_elf origin)
                (search_libs_of parsed_elf) [] (relative_direct_libs_of parsed_elf) k) as Hs.
  destruct (searched _ _ _ _ _ _) as [res unres]. simpl in Hs.
  pose proof (checked_resolved (direct_libs_of parsed_elf) res unres k) as Hc.
  destruct (checked _ _ _ _ _) as [res' unres']. simpl in *.
  rewrite Hc, Hs.
  destruct (first_usable _ _ _ k); reflexivity.
Qed.

Lemma problem_of_relative_rpaths (origin : bytes) :
  relative_rpaths (problem_of env parsed_elf origin)
  = relative_rpaths_of parsed_elf origin.
Proof.
  unfold problem_of.
  destruct (searched _ _ _ _ _ _) as [res unres].
  destruct (checked _ _ _ _ _) as [res' unres']. reflexivity.
Qed.

End Loops.

(** ** Membership *)

Lemma existsb_bytes_In (k : bytes) (l : list bytes) :
  existsb (bytes_eqb k) l = true <-> In k l.
Proof.
  rewrite existsb_exists. split.
  - intros [x [Hin Heq]]. apply bytes_eqb_eq in Heq. subst; assumption.
  - intros Hin. exists k. split; [assumption | apply bytes_eqb_refl].
Qed.

Lemma existsb_bytes_not_In (k : bytes) (l : list bytes) :
  ~ In k l -> existsb (bytes_eqb k) l = false.
Proof.
  intros Hn. destruct (existsb (bytes_eqb k) l) eqn:E; [|reflexivity].
  apply existsb_bytes_In in E. contradiction.
Qed.

Lemma direct_libs_of_In (parsed_elf : ElfFile) (lib : bytes) :
  In lib (direct_libs_of parsed_elf) <->
  In lib (dt_needed_strs parsed_elf) /\ contains_byte sep lib = true /\
  os_path.isabs lib = true.
Proof.
  unfold direct_libs_of. rewrite !filter_In. tauto.
Qed.

Lemma relative_direct_libs_of_In (parsed_elf : ElfFile) (lib : bytes) :
  In lib (relative_direct_libs_of parsed_elf) <->
  In lib (dt_needed_strs parsed_elf) /\ contains_byte sep lib = true /\
  os_path.isabs lib = false.
Proof.
  unfold relative_direct_libs_of. rewrite !filter_In, negb_true_iff. tauto.
Qed.

Lemma search_libs_of_In (parsed_elf : ElfFile) (lib : bytes) :
  In lib (search_libs_of parsed_elf) <->
  In lib (dt_needed_strs parsed_elf) /\ contains_byte sep lib = false.
Proof.
  unfold search_libs_of. rewrite filter_In, negb_true_iff. tauto.
Qed.

Lemma failed_search_libs_In (env : Env) (parsed_elf : ElfFile) (origin lib : bytes) :
  In lib (failed_search_libs env parsed_elf origin) <->
  In lib (search_libs_of parsed_elf) /\ wanted lib = true /\
  first_usable env parsed_elf (absolute_rpaths_of parsed_elf origin) lib = None.
Proof.
  unfold failed_search_libs, search_fails.
  rewrite filter_In, andb_true_iff.
  destruct (first_usable _ _ _ lib); intuition congruence.
Qed.

Lemma failed_direct_libs_In (env : Env) (parsed_elf : ElfFile) (lib : bytes) :
  In lib (failed_direct_libs env parsed_elf) <->
  In lib (direct_libs_of parsed_elf) /\ usable env parsed_elf lib = false.
Proof.
  unfold failed_direct_libs. rewrite filter_In, negb_true_iff. tauto.
Qed.

(** The keys of [resolved]: validated direct references and by-search
    names that some rpath resolves. *)
Lemma problem_of_resolved_key (env : Env) (parsed_elf : ElfFile) (origin k : bytes) :
  In k (dict_keys (resolved (problem_of env parsed_elf origin))) <->
  (In k (direct_libs_of parsed_elf) /\ usable env parsed_elf k = true) \/
  (In k (search_libs_of parsed_elf) /\ wanted k = true /\
   first_usable env parsed_elf (absolute_rpaths_of parsed_elf origin) k <> None).
Proof.
  rewrite dict_keys_get, problem_of_resolved.
  destruct (existsb (bytes_eqb k) (direct_libs_of parsed_elf)) eqn:Ed;
    [apply existsb_bytes_In in Ed
    |assert (~ In k (direct_libs_of parsed_elf))
       by (intros H; apply existsb_bytes_In in H; congruence)];
  destruct (usable env parsed_elf k) eqn:Eu; simpl;
  destruct (existsb (bytes_eqb k) (search_libs_of parsed_elf)) eqn:Es;
    try apply existsb_bytes_In in Es;
    try assert (~ In k (search_libs_of parsed_elf))
       by (intros H'; apply existsb_bytes_In in H'; congruence);
  destruct (wanted k) eqn:Ew; simpl;
  intuition congruence.
Qed.

Lemma precedes_app {A} (x y : A) (l0 l1 l2 : list A) :
  In x l1 -> In y l2 -> precedes x y (l0 ++ l1 ++ l2).
Proof.
  intros Hx Hy.
  apply in_split in Hx. destruct Hx as [a1 [a2 ->]].
  apply in_split in Hy. destruct Hy as [b1 [b2 ->]].
  exists (l0 ++ a1), (a2 ++ b1), b2.
  repeat (rewrite <- app_assoc; simpl). reflexivity.
Qed.

(** ** The order of [unresolved] *)

(** C3 (amended): [unresolved] holds first the relative direct references,
    then the by-search names that no search path resolves, then the
    absolute direct references that fail validation; so every failed
    by-search name precedes every failed absolute direct reference. *)
Theorem unresolved_order (env : Env) (parsed_elf : ElfFile) (origin : bytes) :
  well_behaved env ->
  exists log problem,
    resolve_needed env parsed_elf origin = (log, inr problem) /\
    unresolved problem =
      relative_direct_libs_of parsed_elf
        ++ failed_search_libs env parsed_elf origin
        ++ failed_direct_libs env parsed_elf /\
    forall name path,
      In name (failed_search_libs env parsed_elf origin) ->
      In path (failed_direct_libs env parsed_elf) ->
      precedes name path (unresolved problem).
Proof.
  intros Hwb.
  exists (map Open (probed_paths env parsed_elf origin)),
         (problem_of env parsed_elf origin).
  split; [apply resolve_needed_pure; assumption|].
  rewrite problem_of_unresolved. split; [reflexivity|].
  intros name path Hn Hp. apply precedes_app; assumption.
Qed.

Lemma fixture_well_behaved (files : list (bytes * option ElfFile))
    (tree : list dirent) (strict : bool) :
  well_behaved (Fixture.env_of files tree strict).
Proof.
  split.
  - simpl. intros path e. induction files as [|[p f] files IH]; simpl.
    + intros H; injection H as <-; reflexivity.
    + destruct (bytes_eqb p path); [discriminate | exact IH].
  - simpl. intros [parsed|] _ _ e H; [discriminate|].
    injection H as <-; reflexivity.
Qed.

Lemma unresolved_order_witness :
  exists log problem,
    resolve_needed Fixture.missing_env Fixture.missing_app Fixture.app_origin
    = (log, inr problem) /\
    unresolved problem =
      relative_direct_libs_of Fixture.missing_app
        ++ failed_search_libs Fixture.missing_env Fixture.missing_app Fixture.app_origin
        ++ failed_direct_libs Fixture.missing_env Fixture.missing_app /\
    forall name path,
      In name (failed_search_libs Fixture.missing_env Fixture.missing_app
                 Fixture.app_origin) ->
      In path (failed_direct_libs Fixture.missing_env Fixture.missing_app) ->
      precedes name path (unresolved problem).
Proof.
  apply (unresolved_order Fixture.missing_env Fixture.missing_app Fixture.app_origin).
  apply fixture_well_behaved.
Defined.

(** C3 as the spec states it fails: for a file that needs
    [/abs/missing.so] and [libmissing.so], both missing, the failed
    by-search name comes first in [unresolved], so the order of the spec's
    steps does not hold and the failed direct reference does not precede
    the failed by-search name. *)
Lemma unresolved_order_counterexample :
  exists log problem,
    resolve_needed Fixture.missing_env Fixture.missing_app Fixture.app_origin
    = (log, inr problem) /\
    unresolved problem = [b "libmissing.so"; b "/abs/missing.so"] /\
    In (b "/abs/missing.so") (failed_direct_libs Fixture.missing_env Fixture.missing_app) /\
    In (b "libmissing.so")
       (failed_search_libs Fixture.missing_env Fixture.missing_app Fixture.app_origin) /\
    ~ spec_step_order Fixture.missing_env Fixture.missing_app Fixture.app_origin problem /\
    ~ precedes (b "/abs/missing.so") (b "libmissing.so") (unresolved problem).
Proof.
  eexists. eexists. split; [vm_compute; reflexivity|].
  split; [reflexivity|].
  split; [vm_compute; auto|].
  split; [vm_compute; auto|].
  split.
  - unfold spec_step_order. vm_compute. discriminate.
  - intros [l1 [l2 [l3 H]]]. simpl in H.
    destruct l1 as [|x1 l1]; simpl in H; [inversion H|].
    destruct l1 as [|x2 l1]; simpl in H.
    + injection H as _ H. destruct l2; discriminate H.
    + injection H as _ _ H. destruct l1; discriminate H.
Qed.

(** ** Disjointness of [resolved] and [unresolved] *)

(** C9: in the [Problem] of a file no name is both a key of [resolved] and
    an element of [unresolved], whatever the needed entries are, repeated
    names included. *)
Theorem resolved_unresolved_disjoint (env : Env) (parsed_elf : ElfFile) (origin : bytes) :
  well_behaved env ->
  exists log problem,
    resolve_needed env parsed_elf origin = (log, inr problem) /\
    forall name,
      ~ (In name (dict_keys (resolved problem)) /\ In name (unresolved problem)).
Proof.
  intros Hwb.
  exists (map Open (probed_paths env parsed_elf origin)),
         (problem_of env parsed_elf origin).
  split; [apply resolve_needed_pure; assumption|].
  intros name [Hk Hu].
  rewrite problem_of_resolved_key in Hk.
  rewrite problem_of_unresolved, !in_app_iff in Hu.
  rewrite relative_direct_libs_of_In, failed_search_libs_In,
    failed_direct_libs_In in Hu.
  rewrite !direct_libs_of_In, !search_libs_of_In in *.
  intuition congruence.
Qed.

Lemma resolved_unresolved_disjoint_witness :
  well_behaved Fixture.repeated_env /\
  exists log problem,
    resolve_needed Fixture.repeated_env Fixture.repeated_app Fixture.app_origin
    = (log, inr problem) /\
    forall name,
      ~ (In name (dict_keys (resolved problem)) /\ In name (unresolved problem)).
Proof.
  split; [apply fixture_well_behaved|].
  apply (resolved_unresolved_disjoint
           Fixture.repeated_env Fixture.repeated_app Fixture.app_origin).
  apply fixture_well_behaved.
Defined.

(** ** The allowlist *)

Lemma matches_atoms_star (p : list fnmatch.atom) (s : str) :
  re.matches_atoms (fnmatch.AnyString :: p) s
  = re.matches_atoms p s ||
    match s with
    | _ :: s' => re.matches_atoms (fnmatch.AnyString :: p) s'
    | [] => false
    end.
Proof. destruct s; reflexivity. Qed.

Lemma matches_atoms_sound (p : list fnmatch.atom) (s : str) :
  re.matches_atoms p s = true -> glob_matches p s.
Proof.
  revert s. induction p as [|a p IH]; intros s.
  - destruct s; simpl; [constructor | discriminate].
  - destruct a.
    + induction s as [|c s IHs]; rewrite matches_atoms_star.
      * rewrite orb_false_r. intros H. apply glob_star_stop, IH, H.
      * intros H. apply orb_true_iff in H. destruct H as [H|H].
        -- apply glob_star_stop, IH, H.
        -- apply glob_star_step, IHs, H.
    + destruct s as [|c s]; simpl; [discriminate|].
      intros H. apply glob_any_char, IH, H.
    + destruct s as [|d s]; simpl; [discriminate|].
      intros H. apply andb_true_iff in H. destruct H as [Hc H].
      apply N.eqb_eq in Hc. subst d. apply glob_literal, IH, H.
Qed.

Lemma matches_atoms_complete (p : list fnmatch.atom) (s : str) :
  glob_matches p s -> re.matches_atoms p s = true.
Proof.
  induction 1 as [|c p s _ IH|c p s _ IH|p s _ IH|c p s _ IH].
  - reflexivity.
  - simpl. rewrite N.eqb_refl, IH. reflexivity.
  - simpl. exact IH.
  - rewrite matches_atoms_star, IH. reflexivity.
  - rewrite matches_atoms_star, IH. apply orb_true_r.
Qed.

Lemma regex_match_allowlisted (text : str) :
  re.match_ ALLOW_UNRESOLVED_REGEX text = true <-> allowlisted text.
Proof.
  unfold re.match_, allowlisted.
  change ALLOW_UNRESOLVED_REGEX with (map fnmatch.translate ALLOW_UNRESOLVED).
  rewrite existsb_exists. split.
  - intros [p [Hin Hm]]. apply in_map_iff in Hin. destruct Hin as [pat [<- Hin]].
    exists pat. split; [assumption | apply matches_atoms_sound, Hm].
  - intros [pat [Hin Hm]]. exists (fnmatch.translate pat). split.
    + apply in_map, Hin.
    + apply matches_atoms_complete, Hm.
Qed.

Lemma ret_inj {A} (x y : A) : ret x = ret y -> x = y.
Proof. unfold ret. intros H. injection H. auto. Qed.

(** C5: [should_be_resolved name] is False exactly when [name] decodes as
    UTF-8 and the decoded text matches one of the allowlist's glob patterns
    over its full length; when decoding fails it is True; and a bare name
    for which it is False is neither a key of [resolved] nor an element of
    [unresolved] in the [Problem] of any file. *)
Theorem should_be_resolved_allowlist :
  (forall name,
      should_be_resolved name = ret false <->
      exists text, utf8.decode name = inr text /\ allowlisted text) /\
  (forall name,
      utf8.decode name = inl UnicodeDecodeError ->
      should_be_resolved name = ret true) /\
  (forall env parsed_elf origin name,
      well_behaved env ->
      contains_byte sep name = false ->
      should_be_resolved name = ret false ->
      exists log problem,
        resolve_needed env parsed_elf origin = (log, inr problem) /\
        ~ In name (dict_keys (resolved problem)) /\
        ~ In name (unresolved problem)).
Proof.
  split; [|split].
  - intros name. rewrite should_be_resolved_wanted.
    unfold wanted, utf8.decode.
    destruct (utf8.decode_opt name) as [text|]; split.
    + intros H. apply ret_inj, negb_false_iff in H.
      exists text. split; [reflexivity | apply regex_match_allowlisted, H].
    + intros [text' [Heq Hal]]. injection Heq as <-.
      apply regex_match_allowlisted in Hal. rewrite Hal. reflexivity.
    + intros H. apply ret_inj in H. discriminate.
    + intros [text' [Heq _]]. discriminate.
  - intros name. rewrite should_be_resolved_wanted.
    unfold wanted, utf8.decode.
    destruct (utf8.decode_opt name); [discriminate | reflexivity].
  - intros env parsed_elf origin name Hwb Hsep Hskip.
    rewrite should_be_resolved_wanted in Hskip. apply ret_inj in Hskip.
    exists (map Open (probed_paths env parsed_elf origin)),
           (problem_of env parsed_elf origin).
    split; [apply resolve_needed_pure; assumption|].
    rewrite problem_of_resolved_key, problem_of_unresolved, !in_app_iff.
    rewrite relative_direct_libs_of_In, failed_search_libs_In,
      failed_direct_libs_In, !direct_libs_of_In.
    intuition congruence.
Qed.

Lemma should_be_resolved_allowlist_witness :
  (exists text, utf8.decode (b "libc.so.6") = inr text /\ allowlisted text) /\
  should_be_resolved ("255"%char :: b "libc.so.6") = ret true /\
  exists log problem,
    resolve_needed Fixture.relative_rpath_env Fixture.relative_rpath_app
                   Fixture.app_origin
    = (log, inr problem) /\
    ~ In (b "libc.so.6") (dict_keys (resolved problem)) /\
    ~ In (b "libc.so.6") (unresolved problem).
Proof.
  destruct should_be_resolved_allowlist as [Hiff [Hfail Hskip]].
  split; [|split].
  - apply (proj1 (Hiff (b "libc.so.6"))). vm_compute. reflexivity.
  - apply Hfail. vm_compute. reflexivity.
  - apply Hskip.
    + apply fixture_well_behaved.
    + vm_compute. reflexivity.
    + vm_compute. reflexivity.
Defined.

(** ** First match *)

Lemma candidate_matches_split (env : Env) (current_elf : ElfFile) (path : bytes) :
  candidate_matches env current_elf path
  = ([Open path], outcome (candidate_matches env current_elf path)).
Proof.
  rewrite <- (candidate_matches_events env current_elf path).
  unfold events, outcome. destruct (candidate_matches env current_elf path); reflexivity.
Qed.

Lemma search_rpaths_first (env : Env) (parsed_elf : ElfFile) (lib : bytes)
    (pre : list bytes) (entry : bytes) (post : list bytes) :
  (forall rpath, In rpath pre ->
     outcome (candidate_matches env parsed_elf (os_path.join rpath lib)) = inr false) ->
  outcome (candidate_matches env parsed_elf (os_path.join entry lib)) = inr true ->
  search_rpaths env parsed_elf lib (pre ++ entry :: post)
  = (map (fun rpath => Open (os_path.join rpath lib)) (pre ++ [entry]),
     inr (Some (os_path.join entry lib))).
Proof.
  intros Hpre Hentry.
  induction pre as [|rpath pre IH]; simpl.
  - rewrite candidate_matches_split, Hentry. reflexivity.
  - rewrite candidate_matches_split, (Hpre rpath (or_introl eq_refl)). simpl.
    rewrite IH.
    + reflexivity.
    + intros r Hr. apply Hpre. right; assumption.
Qed.

Lemma first_usable_first (env : Env) (parsed_elf : ElfFile) (lib : bytes)
    (pre : list bytes) (entry : bytes) (post : list bytes) :
  (forall rpath, In rpath pre ->
     usable env parsed_elf (os_path.join rpath lib) = false) ->
  usable env parsed_elf (os_path.join entry lib) = true ->
  first_usable env parsed_elf (pre ++ entry :: post) lib
  = Some (os_path.join entry lib).
Proof.
  intros Hpre Hentry. unfold first_usable.
  induction pre as [|rpath pre IH]; simpl.
  - rewrite Hentry. reflexivity.
  - rewrite (Hpre rpath (or_introl eq_refl)). apply IH.
    intros r Hr. apply Hpre. right; assumption.
Qed.

Lemma outcome_usable (env : Env) (current_elf : ElfFile) (path : bytes) (v : bool) :
  well_behaved env ->
  outcome (candidate_matches env current_elf path) = inr v ->
  usable env current_elf path = v.
Proof.
  intros Hwb. rewrite (candidate_matches_usable env current_elf path Hwb).
  unfold outcome; simpl. congruence.
Qed.

Lemma direct_has_sep (parsed_elf : ElfFile) (lib : bytes) :
  contains_byte sep lib = false -> ~ In lib (direct_libs_of parsed_elf).
Proof.
  intros Hsep Hin. apply direct_libs_of_In in Hin. intuition congruence.
Qed.

(** C1: for a bare needed name that must be resolved, the absolute search
    paths are probed in their declared order with the candidate
    [entry / name]; the loop stops at the first entry whose candidate
    matches, so that exactly the candidates up to that entry are opened and
    none after it, and [resolved[name]] is that first candidate.  With the
    search paths [A; B] and a compatible candidate under both, this is the
    one under [A]. *)
Theorem first_match_wins (env : Env) (parsed_elf : ElfFile) (origin lib : bytes)
    (pre : list bytes) (entry : bytes) (post : list bytes) :
  well_behaved env ->
  In lib (dt_needed_strs parsed_elf) ->
  contains_byte sep lib = false ->
  should_be_resolved lib = ret true ->
  absolute_rpaths_of parsed_elf origin = pre ++ entry :: post ->
  (forall rpath, In rpath pre ->
     outcome (candidate_matches env parsed_elf (os_path.join rpath lib)) = inr false) ->
  outcome (candidate_matches env parsed_elf (os_path.join entry lib)) = inr true ->
  search_rpaths env parsed_elf lib (absolute_rpaths_of parsed_elf origin)
  = (map (fun rpath => Open (os_path.join rpath lib)) (pre ++ [entry]),
     inr (Some (os_path.join entry lib))) /\
  exists log problem,
    resolve_needed env parsed_elf origin = (log, inr problem) /\
    dict_get bytes_eqb (resolved problem) lib = Some (os_path.join entry lib).
Proof.
  intros Hwb Hin Hsep Hwanted Hrpaths Hpre Hentry. split.
  - rewrite Hrpaths. apply search_rpaths_first; assumption.
  - exists (map Open (probed_paths env parsed_elf origin)),
           (problem_of env parsed_elf origin).
    split; [apply resolve_needed_pure; assumption|].
    rewrite should_be_resolved_wanted in Hwanted. apply ret_inj in Hwanted.
    rewrite problem_of_resolved.
    rewrite (existsb_bytes_not_In _ _ (direct_has_sep parsed_elf lib Hsep)). simpl.
    assert (Hs : existsb (bytes_eqb lib) (search_libs_of parsed_elf) = true).
    { apply existsb_bytes_In, search_libs_of_In. split; assumption. }
    rewrite Hs, Hwanted, Hrpaths. simpl.
    apply first_usable_first.
    + intros r Hr. apply (outcome_usable env parsed_elf _ false Hwb), Hpre, Hr.
    + apply (outcome_usable env parsed_elf _ true Hwb), Hentry.
Qed.

Lemma first_match_wins_witness :
  absolute_rpaths_of Fixture.two_paths_app Fixture.app_origin = [b "/A"; b "/B"] /\
  candidate_matches Fixture.two_paths_env Fixture.two_paths_app (b "/B/libx.so")
  = ([Open (b "/B/libx.so")], inr true) /\
  search_rpaths Fixture.two_paths_env Fixture.two_paths_app (b "libx.so")
    (absolute_rpaths_of Fixture.two_paths_app Fixture.app_origin)
  = (map (fun rpath => Open (os_path.join rpath (b "libx.so"))) ([] ++ [b "/A"]),
     inr (Some (os_path.join (b "/A") (b "libx.so")))) /\
  exists log problem,
    resolve_needed Fixture.two_paths_env Fixture.two_paths_app Fixture.app_origin
    = (log, inr problem) /\
    dict_get bytes_eqb (resolved problem) (b "libx.so")
    = Some (os_path.join (b "/A") (b "libx.so")).
Proof.
  split; [vm_compute; reflexivity|].
  split; [vm_compute; reflexivity|].
  apply (first_match_wins Fixture.two_paths_env Fixture.two_paths_app
           Fixture.app_origin (b "libx.so") [] (b "/A") [b "/B"]).
  - apply fixture_well_behaved.
  - simpl. left. reflexivity.
  - vm_compute. reflexivity.
  - vm_compute. reflexivity.
  - vm_compute. reflexivity.
  - intros rpath [].
  - vm_compute. reflexivity.
Defined.

(** ** [visit_file] and the diagnostic *)

Lemma dict_get_set_str {V} (d : dict str V) (k : str) (v : V) :
  dict_get str_eqb (dict_set str_eqb d k v) k = Some v.
Proof.
  induction d as [|[k0 v0] d IH]; simpl.
  - rewrite (proj2 (str_eqb_eq k k) eq_refl). reflexivity.
  - destruct (str_eqb k0 k) eqn:E; simpl; rewrite E; [reflexivity | exact IH].
Qed.

Lemma visit_file_pure (env : Env) (root rel_path : str) (depth : nat)
    (problems : dict str Problem) (path : bytes) :
  well_behaved env ->
  utf8.encode (os_path.join_str root rel_path) = inr path ->
  visit_file env root rel_path depth problems
  = match parsed_at env path with
    | None => ([Open path], inr problems)
    | Some parsed_elf =>
        if has_needed parsed_elf
        then (Open path
                :: map Open (probed_paths env parsed_elf (os_path.dirname path)),
              inr (record_problem problems rel_path
                     (problem_of env parsed_elf (os_path.dirname path))))
        else ([Open path], inr problems)
    end.
Proof.
  intros Hwb Hpath. pose proof Hwb as [Hopen Hparse].
  unfold visit_file, parsed_at. rewrite Hpath.
  unfold open_rb, emit, lift; simpl.
  destruct (os_open env path) as [e|f] eqn:Eo; simpl.
  - apply Hopen in Eo. destruct e; simpl in Eo; try discriminate; reflexivity.
  - destruct (parse_elf env f false true) as [e|parsed_elf] eqn:Ep; simpl.
    + apply Hparse in Ep. destruct e; simpl in Ep; try discriminate; reflexivity.
    + destruct (has_needed parsed_elf); simpl; [|reflexivity].
      rewrite (resolve_needed_pure env Hwb). simpl.
      unfold record_problem.
      destruct (truthy _ || truthy _); simpl; rewrite app_nil_r; reflexivity.
Qed.

Lemma relative_rpaths_of_In (parsed_elf : ElfFile) (origin entry : bytes) :
  In entry (relative_rpaths_of parsed_elf origin) <->
  has_rpath parsed_elf = true /\
  os_path.isabs entry = false /\
  exists piece,
    In piece (bytes_split ":"%char (dt_rpath_str parsed_elf)) /\
    piece <> [] /\
    entry = bytes_replace ORIGIN origin piece.
Proof.
  unfold relative_rpaths_of, interpolated_rpaths.
  rewrite filter_In, negb_true_iff, in_map_iff.
  destruct (has_rpath parsed_elf).
  - split.
    + intros [[piece [<- Hin]] Habs]. apply filter_In in Hin.
      destruct Hin as [Hin Ht]. apply truthy_true in Ht.
      split; [reflexivity|]. split; [assumption|]. exists piece. auto.
    + intros (_ & Habs & piece & Hin & Hne & ->). split; [|assumption].
      exists piece. split; [reflexivity|].
      apply filter_In. split; [assumption | apply truthy_true, Hne].
  - simpl. split.
    + intros [[piece [_ []]] _].
    + intros (H & _). discriminate.
Qed.

(** X19: for a regular file whose path is UTF-8 text, handed to
    [visit_file] with no entry of its own in [problems] yet: when the file
    is an ELF file with needed entries, it has an entry afterwards exactly
    when its [unresolved] or its [relative_rpaths] is non-empty, and that
    entry is its [Problem]; when it has no needed entries, or is not an ELF
    file, it has none.  Its [unresolved] is the relative direct
    references, the bare names that no search path resolves and the
    absolute direct references that do not validate; its [relative_rpaths]
    are the non-empty pieces of the RPATH that are relative after
    [$ORIGIN] is replaced, so a file whose RPATH has such a piece gets an
    entry that holds it, whether its libraries resolve or not. *)
Theorem diagnostic_iff (env : Env) (root rel_path : str) (depth : nat)
    (problems : dict str Problem) (path : bytes) :
  well_behaved env ->
  utf8.encode (os_path.join_str root rel_path) = inr path ->
  ~ In rel_path (dict_keys problems) ->
  exists log problems',
    visit_file env root rel_path depth problems = (log, inr problems') /\
    (parsed_at env path = None -> ~ In rel_path (dict_keys problems')) /\
    (forall parsed_elf,
        parsed_at env path = Some parsed_elf ->
        has_needed parsed_elf = false ->
        ~ In rel_path (dict_keys problems')) /\
    (forall parsed_elf,
        parsed_at env path = Some parsed_elf ->
        has_needed parsed_elf = true ->
        exists log' problem,
          resolve_needed env parsed_elf (os_path.dirname path)
          = (log', inr problem) /\
          unresolved problem
          = relative_direct_libs_of parsed_elf
              ++ failed_search_libs env parsed_elf (os_path.dirname path)
              ++ failed_direct_libs env parsed_elf /\
          (In rel_path (dict_keys problems') <->
           unresolved problem <> [] \/ relative_rpaths problem <> []) /\
          (In rel_path (dict_keys problems') ->
           dict_get str_eqb problems' rel_path = Some problem) /\
          (forall entry,
              In entry (relative_rpaths problem) <->
              has_rpath parsed_elf = true /\
              os_path.isabs entry = false /\
              exists piece,
                In piece (bytes_split ":"%char (dt_rpath_str parsed_elf)) /\
                piece <> [] /\
                entry = bytes_replace ORIGIN (os_path.dirname path) piece) /\
          (forall piece,
              has_rpath parsed_elf = true ->
              In piece (bytes_split ":"%char (dt_rpath_str parsed_elf)) ->
              piece <> [] ->
              os_path.isabs (bytes_replace ORIGIN (os_path.dirname path) piece)
              = false ->
              dict_get str_eqb problems' rel_path = Some problem /\
              In (bytes_replace ORIGIN (os_path.dirname path) piece)
                 (relative_rpaths problem))).
Proof.
  intros Hwb Hpath Hfresh.
  rewrite (visit_file_pure env root rel_path depth problems path Hwb Hpath).
  destruct (parsed_at env path) as [parsed_elf|] eqn:Hparsed.
  - destruct (has_needed parsed_elf) eqn:Hneeded.
    + eexists. eexists. split; [reflexivity|].
      split; [discriminate|].
      split; [intros elf H; injection H as <-; congruence|].
      intros elf H _. injection H as <-.
      set (D := os_path.dirname path).
      exists (map Open (probed_paths env parsed_elf D)), (problem_of env parsed_elf D).
      split; [apply resolve_needed_pure; assumption|].
      split; [apply problem_of_unresolved|].
      assert (Hrel : forall entry,
                 In entry (relative_rpaths (problem_of env parsed_elf D)) <->
                 has_rpath parsed_elf = true /\
                 os_path.isabs entry = false /\
                 exists piece,
                   In piece (bytes_split ":"%char (dt_rpath_str parsed_elf)) /\
                   piece <> [] /\
                   entry = bytes_replace ORIGIN D piece).
      { intros entry. rewrite problem_of_relative_rpaths.
        apply relative_rpaths_of_In. }
      unfold record_problem.
      destruct (truthy (unresolved _) || truthy (relative_rpaths _)) eqn:E.
      * assert (Hin : In rel_path
                        (dict_keys (dict_set str_eqb problems rel_path
                                      (problem_of env parsed_elf D)))).
        { apply dict_keys_set_str. left; reflexivity. }
        apply orb_true_iff in E. rewrite !truthy_true in E.
        split; [tauto|].
        split; [intros _; apply dict_get_set_str|].
        split; [exact Hrel|].
        intros piece Hr Hp Hne Habs.
        split; [apply dict_get_set_str|].
        apply Hrel. split; [assumption|]. split; [assumption|].
        exists piece. auto.
      * apply orb_false_iff in E. rewrite !truthy_false in E.
        destruct E as [Eu Er].
        split; [rewrite Eu, Er; tauto|].
        split; [tauto|].
        split; [exact Hrel|].
        intros piece Hr Hp Hne Habs. exfalso.
        assert (Hin : In (bytes_replace ORIGIN D piece)
                         (relative_rpaths (problem_of env parsed_elf D))).
        { apply Hrel. split; [assumption|]. split; [assumption|].
          exists piece. auto. }
        rewrite Er in Hin. destruct Hin.
    + eexists. eexists. split; [reflexivity|].
      split; [discriminate|].
      split; [intros _ _ _; assumption|].
      intros elf H Hn. injection H as <-. congruence.
  - eexists. eexists. split; [reflexivity|].
    split; [intros _; assumption|].
    split; intros elf H; discriminate.
Qed.

Lemma diagnostic_iff_witness :
  exists log problems' problem,
    visit_file Fixture.relative_rpath_env (u "/opt/pkg") (u "bin/app") 1 []
    = (log, inr problems') /\
    dict_get str_eqb problems' (u "bin/app") = Some problem /\
    unresolved problem = [] /\
    In (b "lib") (relative_rpaths problem).
Proof.
  destruct (diagnostic_iff Fixture.relative_rpath_env (u "/opt/pkg") (u "bin/app") 1 []
              Fixture.app_path)
    as (log & problems' & Hvisit & _ & _ & Hneeded).
  - apply fixture_well_behaved.
  - vm_compute. reflexivity.
  - simpl. tauto.
  - destruct (Hneeded Fixture.relative_rpath_app) as (log' & problem & Hr & _ & _ & _ & _ & Hp).
    + vm_compute. reflexivity.
    + reflexivity.
    + destruct (Hp (b "lib")) as [Hget Hin].
      * reflexivity.
      * vm_compute. right; right; left. reflexivity.
      * discriminate.
      * vm_compute. reflexivity.
      * exists log, problems', problem.
        split; [exact Hvisit|]. split; [exact Hget|]. split; [|exact Hin].
        vm_compute in Hr. injection Hr as _ <-. reflexivity.
Defined.

(** C4, where the code departs from it: the regular file
    [lib<U+DCFF>.so] of the install tree (the name that the file system
    gives for the bytes [lib\xff.so]) is an ELF file with needed entries
    that are found nowhere, so its [unresolved] is non-empty.  The visit
    raises UnicodeEncodeError where the path is encoded, before the file is
    opened: no entry is recorded for it, and [post_install] ends with that
    exception, so the entry of [bin/app], visited before it, is not
    reported either. *)
Theorem visit_file_non_utf8_name :
  parsed_at Fixture.surrogate_env Fixture.surrogate_file_path
  = Some Fixture.missing_app /\
  has_needed Fixture.missing_app = true /\
  outcome (resolve_needed Fixture.surrogate_env Fixture.missing_app
             (os_path.dirname Fixture.surrogate_file_path))
  = inr {| resolved := [];
           unresolved := [b "libmissing.so"; b "/abs/missing.so"];
           relative_rpaths := [] |} /\
  (forall depth problems,
      visit_file Fixture.surrogate_env (u "/opt/pkg") Fixture.surrogate_name
        depth problems
      = ([], inl UnicodeEncodeError)) /\
  post_install Fixture.surrogate_env (Fixture.linux "/opt/pkg") true
  = ([Open Fixture.app_path; Open (b "/abs/missing.so")], inl UnicodeEncodeError).
Proof.
  split; [vm_compute; reflexivity|].
  split; [reflexivity|].
  split; [vm_compute; reflexivity|].
  split.
  - intros depth problems. vm_compute. reflexivity.
  - vm_compute. reflexivity.
Qed.

(** The three kinds of file, run. *)
Example relative_rpath_is_reported :
  outcome (visit_file Fixture.relative_rpath_env (u "/opt/pkg") (u "bin/app") 1 [])
  = inr [(u "bin/app",
          {| resolved := [(b "libfoo.so", b "/opt/pkg/bin/../lib/libfoo.so")];
             unresolved := [];
             relative_rpaths := [b "lib"] |})].
Proof. vm_compute. reflexivity. Qed.

Example no_needed_is_not_reported :
  visit_file Fixture.static_env (u "/opt/pkg") (u "bin/app") 1 []
  = ([Open Fixture.app_path], inr []).
Proof. vm_compute. reflexivity. Qed.

Example not_elf_is_not_reported :
  visit_file Fixture.static_env (u "/opt/pkg") (u "README") 0 []
  = ([Open (b "/opt/pkg/README")], inr []).
Proof. vm_compute. reflexivity. Qed.

(** ** Search paths *)




Lemma replace_origin_token (origin x : bytes) :
  bytes_replace ORIGIN origin (ORIGIN ++ x) = origin ++ bytes_replace ORIGIN origin x.
Proof. reflexivity. Qed.


Lemma probes_candidates (env : Env) (parsed_elf : ElfFile) (lib : bytes)
    (rpaths : list bytes) (candidate : bytes) :
  In candidate (probes env parsed_elf lib rpaths) ->
  exists entry, In entry rpaths /\ candidate = os_path.join entry lib.
Proof.
  induction rpaths as [|rpath rpaths IH]; simpl; [tauto|].
  intros [<-|H].
  - exists rpath. auto.
  - destruct (usable env parsed_elf (os_path.join rpath lib)); [destruct H|].
    destruct (IH H) as [entry [Hin Heq]]. exists entry. auto.
Qed.

Lemma probed_paths_origin (env : Env) (parsed_elf : ElfFile) (origin candidate : bytes) :
  In candidate (probed_paths env parsed_elf origin) ->
  In candidate (direct_libs_of parsed_elf) \/
  exists entry lib,
    In entry (absolute_rpaths_of parsed_elf origin) /\
    In lib (search_libs_of parsed_elf) /\ wanted lib = true /\
    candidate = os_path.join entry lib.
Proof.
  unfold probed_paths, searched_paths. rewrite in_app_iff, in_flat_map.
  intros [[lib [Hlib Hc]]|H]; [right | left; assumption].
  destruct (wanted lib) eqn:Ew; [|destruct Hc].
  apply probes_candidates in Hc. destruct Hc as [entry [Hin Heq]].
  exists entry, lib. auto.
Qed.

Lemma In_Open_map (l : list bytes) (path : bytes) :
  In (Open path) (map Open l) <-> In path l.
Proof.
  rewrite in_map_iff. split.
  - intros [x [Heq Hin]]. injection Heq as ->. assumption.
  - intros H. exists path. auto.
Qed.



(** ** Direct references *)

Lemma join_isabs (entry lib : bytes) :
  os_path.isabs entry = true -> os_path.isabs (os_path.join entry lib) = true.
Proof.
  unfold os_path.isabs, os_path.join. intros He.
  destruct (startswith [sep] lib) eqn:El; [assumption|].
  destruct entry as [|c entry]; [discriminate|].
  destruct (negb (truthy (c :: entry)) || endswith_sep (c :: entry)); exact He.
Qed.

Lemma probed_paths_absolute (env : Env) (parsed_elf : ElfFile) (origin path : bytes) :
  In path (probed_paths env parsed_elf origin) -> os_path.isabs path = true.
Proof.
  intros H. apply probed_paths_origin in H.
  destruct H as [Hd|[entry [lib [He [_ [_ ->]]]]]].
  - apply direct_libs_of_In in Hd. tauto.
  - apply join_isabs. unfold absolute_rpaths_of in He.
    apply filter_In in He. tauto.
Qed.

(** C10 (amended): the allowlist is asked about bare names only.  A needed
    entry with a separator that is an absolute path is opened at that path
    and checked, whatever its basename is: when the check fails it is in
    [unresolved], when it succeeds [resolved] maps it to itself.  A needed
    entry with a separator that is a relative path is not opened and is in
    [unresolved]. *)
Theorem direct_references_validated (env : Env) (parsed_elf : ElfFile)
    (origin lib : bytes) :
  well_behaved env ->
  In lib (dt_needed_strs parsed_elf) ->
  contains_byte sep lib = true ->
  exists log problem,
    resolve_needed env parsed_elf origin = (log, inr problem) /\
    (os_path.isabs lib = true ->
     In (Open lib) log /\
     (outcome (candidate_matches env parsed_elf lib) = inr false ->
      In lib (unresolved problem)) /\
     (outcome (candidate_matches env parsed_elf lib) = inr true ->
      dict_get bytes_eqb (resolved problem) lib = Some lib)) /\
    (os_path.isabs lib = false ->
     ~ In (Open lib) log /\ In lib (unresolved problem)).
Proof.
  intros Hwb Hin Hsep.
  exists (map Open (probed_paths env parsed_elf origin)),
         (problem_of env parsed_elf origin).
  split; [apply resolve_needed_pure; assumption|].
  split.
  - intros Habs.
    assert (Hd : In lib (direct_libs_of parsed_elf)).
    { apply direct_libs_of_In. tauto. }
    split; [|split].
    + apply In_Open_map. unfold probed_paths. apply in_app_iff. right; assumption.
    + intros Hf. apply (outcome_usable env parsed_elf lib false Hwb) in Hf.
      rewrite problem_of_unresolved, !in_app_iff. right; right.
      apply failed_direct_libs_In. tauto.
    + intros Ht. apply (outcome_usable env parsed_elf lib true Hwb) in Ht.
      rewrite problem_of_resolved.
      rewrite (proj2 (existsb_bytes_In lib (direct_libs_of parsed_elf)) Hd), Ht.
      reflexivity.
  - intros Hrel. split.
    + intros Ho. apply In_Open_map, probed_paths_absolute in Ho. congruence.
    + rewrite problem_of_unresolved, in_app_iff. left.
      apply relative_direct_libs_of_In. tauto.
Qed.

Lemma direct_references_validated_witness :
  exists log problem,
    resolve_needed Fixture.direct_env Fixture.direct_app Fixture.app_origin
    = (log, inr problem) /\
    (os_path.isabs (b "/usr/lib/libc.so.6") = true ->
     In (Open (b "/usr/lib/libc.so.6")) log /\
     (outcome (candidate_matches Fixture.direct_env Fixture.direct_app
                 (b "/usr/lib/libc.so.6")) = inr false ->
      In (b "/usr/lib/libc.so.6") (unresolved problem)) /\
     (outcome (candidate_matches Fixture.direct_env Fixture.direct_app
                 (b "/usr/lib/libc.so.6")) = inr true ->
      dict_get bytes_eqb (resolved problem) (b "/usr/lib/libc.so.6")
      = Some (b "/usr/lib/libc.so.6"))) /\
    (os_path.isabs (b "/usr/lib/libc.so.6") = false ->
     ~ In (Open (b "/usr/lib/libc.so.6")) log /\
     In (b "/usr/lib/libc.so.6") (unresolved problem)).
Proof.
  apply (direct_references_validated Fixture.direct_env Fixture.direct_app
           Fixture.app_origin (b "/usr/lib/libc.so.6")).
  - apply fixture_well_behaved.
  - simpl. right. left. reflexivity.
  - vm_compute. reflexivity.
Defined.

(** C10 as stated fails on a relative direct reference: [sub/libc.so.6] is
    a needed entry with a separator, the file at that path is a compatible
    shared object, and yet the path is never opened (and the entry is in
    [unresolved]). *)
Lemma direct_references_counterexample :
  exists log problem,
    resolve_needed Fixture.direct_env Fixture.direct_app Fixture.app_origin
    = (log, inr problem) /\
    In (b "sub/libc.so.6") (dt_needed_strs Fixture.direct_app) /\
    contains_byte sep (b "sub/libc.so.6") = true /\
    usable Fixture.direct_env Fixture.direct_app (b "sub/libc.so.6") = true /\
    ~ In (Open (b "sub/libc.so.6")) log /\
    In (b "sub/libc.so.6") (unresolved problem) /\
    ~ direct_always_validated Fixture.direct_env Fixture.direct_app log problem.
Proof.
  eexists. eexists. split; [vm_compute; reflexivity|].
  assert (Hnot : ~ In (Open (b "sub/libc.so.6")) [Open (b "/usr/lib/libc.so.6")]).
  { intros [H|[]]. vm_compute in H. discriminate H. }
  split; [left; reflexivity|].
  split; [vm_compute; reflexivity|].
  split; [vm_compute; reflexivity|].
  split; [exact Hnot|].
  split; [left; reflexivity|].
  intros Hall.
  destruct (Hall (b "sub/libc.so.6")) as [Hopen _].
  - left; reflexivity.
  - vm_compute; reflexivity.
  - apply Hnot, Hopen.
Qed.

Lemma candidate_matches_failure_is_false_witness :
  candidate_matches Fixture.static_env Fixture.lib64 (b "/opt/pkg/missing.so")
  = ([Open (b "/opt/pkg/missing.so")], inr false) /\
  candidate_matches Fixture.static_env Fixture.lib64 (b "/opt/pkg/README")
  = ([Open (b "/opt/pkg/README")], inr false).
Proof.
  destruct (candidate_matches_failure_is_false
              Fixture.static_env Fixture.lib64 (b "/opt/pkg/missing.so")) as [Hopen _].
  destruct (candidate_matches_failure_is_false
              Fixture.static_env Fixture.lib64 (b "/opt/pkg/README")) as [_ Hparse].
  split.
  - apply Hopen. vm_compute. reflexivity.
  - apply (Hparse None ElfParsingError).
    + vm_compute. reflexivity.
    + reflexivity.
    + left. reflexivity.
Defined.

(** ** The report and the policy gate *)

Lemma bind_ret {A B} (a : A) (f : A -> M B) : bind (ret a) f = f a.
Proof. unfold bind, ret. destruct (f a). reflexivity. Qed.

Lemma maybe_decode_pure (byte_str : bytes) :
  maybe_decode byte_str
  = ret (match utf8.decode_opt byte_str with
         | Some s => Str s
         | None => Bytes byte_str
         end).
Proof.
  unfold maybe_decode, utf8.decode, lift, ret; simpl.
  destruct (utf8.decode_opt byte_str); reflexivity.
Qed.

Lemma write_str (output s : str) : write output (Str s) = ret (output ++ s).
Proof. reflexivity. Qed.

(** Runs the writes and decodings at the head of a computation. *)
Ltac run_writes :=
  repeat (rewrite write_str || rewrite bind_ret || rewrite maybe_decode_pure).

Lemma write_unresolved_returns (names : list bytes) (output : str) :
  exists text, write_unresolved names output = ret text.
Proof.
  revert output. induction names as [|name names IH]; intros output;
    cbn [write_unresolved].
  - exists output. reflexivity.
  - run_writes. apply IH.
Qed.

Lemma write_resolved_returns (items : list (bytes * bytes)) (output : str) :
  (forall needed, In (needed, needed) items -> utf8.decode_opt needed <> None) ->
  exists text, write_resolved items output = ret text.
Proof.
  revert output. induction items as [|[needed full_path] items IH]; intros output H;
    cbn [write_resolved].
  - exists output. reflexivity.
  - assert (Hrest : forall n, In (n, n) items -> utf8.decode_opt n <> None).
    { intros n Hn. apply H. right; assumption. }
    run_writes.
    destruct (bytes_eqb needed full_path) eqn:E.
    + apply bytes_eqb_eq in E. subst full_path. run_writes.
      destruct (utf8.decode_opt needed) as [s|] eqn:Ed.
      * run_writes. apply IH, Hrest.
      * exfalso. apply (H needed); [left; reflexivity | assumption].
    + run_writes. apply IH, Hrest.
Qed.

Lemma write_problems_returns (problems : dict str Problem) (output : str) :
  self_resolved_decodable problems ->
  exists text, write_problems problems output = ret text.
Proof.
  revert output. induction problems as [|[path problem] problems IH]; intros output H;
    cbn [write_problems].
  - exists output. reflexivity.
  - run_writes.
    destruct (write_resolved_returns (resolved problem) ((output ++ path) ++ nl))
      as [t1 H1].
    { intros needed Hn. apply (H path problem needed); [left; reflexivity | assumption]. }
    rewrite H1.
    destruct (write_unresolved_returns (unresolved problem) t1) as [t2 H2].
    run_writes. rewrite H2. run_writes.
    apply IH. intros p q n Hp Hn. apply (H p q n); [right; assumption | assumption].
Qed.

(** Where the report renders, the policy gate is as the spec has it: an
    empty report passes in silence, and a non-empty one is raised in
    [CannotLocateSharedLibraries] under the strict policy and sent to
    [tty.error] otherwise, with the same text. *)
Lemma report_policy_gate (env : Env) (problems : dict str Problem) :
  self_resolved_decodable problems ->
  exists text,
    write_problems problems header = ret text /\
    report env problems
    = if negb (truthy problems) then ([], inr tt)
      else if config_strict env
           then ([], inl (CannotLocateSharedLibraries text))
           else ([TtyError text], inr tt).
Proof.
  intros H. destruct (write_problems_returns problems header H) as [text Ht].
  exists text. split; [assumption|].
  unfold report. destruct (truthy problems); cbn [negb]; [|reflexivity].
  rewrite write_str, bind_ret. cbn [app]. rewrite Ht, bind_ret.
  destruct (config_strict env); reflexivity.
Qed.

(** C7, where the code departs from it: an install tree whose [bin/app]
    needs [/opt/<0xff>/libz.so], which is there and compatible, and
    [libmissing.so], which is not.  The walk ends with a non-empty report,
    whose only entry has the direct reference resolved to itself; writing
    that name, which is not UTF-8, makes [io.StringIO.write] raise
    TypeError.  Under the strict policy no [CannotLocateSharedLibraries]
    is raised, and under the other nothing reaches [tty.error] and the
    hook does not return normally. *)
Theorem post_install_undecodable_direct_name (strict : bool) :
  let env := Fixture.undecodable_env strict in
  exists log problem,
    visit_directory_tree (ResolveSharedElfLibDepsVisitor env) env (u "/opt/pkg") []
    = (log, inr [(u "bin/app", problem)]) /\
    resolved problem = [(Fixture.undecodable_lib, Fixture.undecodable_lib)] /\
    unresolved problem = [b "libmissing.so"] /\
    utf8.decode Fixture.undecodable_lib = inl UnicodeDecodeError /\
    post_install env (Fixture.linux "/opt/pkg") true = (log, inl TypeError) /\
    forall text, ~ In (TtyError text) log.
Proof.
  destruct strict.
  - eexists. eexists. split; [vm_compute; reflexivity|].
    repeat (split; [vm_compute; reflexivity|]).
    intros text [H|[H|[]]]; discriminate H.
  - eexists. eexists. split; [vm_compute; reflexivity|].
    repeat (split; [vm_compute; reflexivity|]).
    intros text [H|[H|[]]]; discriminate H.
Qed.

(** The same tree with a direct reference whose name is UTF-8: the strict
    policy raises the report and the other sends the same text to
    [tty.error]. *)
Example post_install_policy_gate_runs :
  exists text,
    outcome (post_install Fixture.missing_env (Fixture.linux "/opt/pkg") true)
    = inl (CannotLocateSharedLibraries text) /\
    post_install (Fixture.env_of [(Fixture.app_path, Some Fixture.missing_app)]
                    Fixture.app_tree false)
                 (Fixture.linux "/opt/pkg") true
    = ([Open Fixture.app_path; Open (b "/abs/missing.so"); TtyError text], inr tt).
Proof. eexists. split; vm_compute; reflexivity. Qed.

(** * Further properties of the hook *)

(** ** The compatibility judge and the probe *)

Lemma is_compatible_iff_parts (env : Env) (parent child : ElfFile) :
  is_compatible env parent child = true <->
  e_type (elf_hdr child) = ET_DYN env /\
  is_little_endian parent = is_little_endian child /\
  is_64_bit parent = is_64_bit child /\
  e_machine (elf_hdr parent) = e_machine (elf_hdr child).
Proof.
  unfold is_compatible.
  rewrite !andb_true_iff, !Z.eqb_eq, !Bool.eqb_true_iff. tauto.
Qed.

(** X1: two candidates that one consumer accepts accept each other, and a
    candidate that some consumer accepts accepts itself.  Of the consumer
    only its endianness, its bit width and its machine code are looked at:
    another consumer that agrees on these three gets the same answer for
    every candidate, whatever its object type is; so a file that is not a
    shared object is not a compatible candidate even for itself. *)
Theorem is_compatible_among_candidates (env : Env) (consumer x y : ElfFile) :
  is_compatible env consumer x = true ->
  is_compatible env consumer y = true ->
  is_compatible env x y = true /\
  is_compatible env x x = true /\
  (e_type (elf_hdr consumer) <> ET_DYN env ->
   is_compatible env consumer consumer = false) /\
  (forall other candidate,
      is_little_endian other = is_little_endian consumer ->
      is_64_bit other = is_64_bit consumer ->
      e_machine (elf_hdr other) = e_machine (elf_hdr consumer) ->
      is_compatible env other candidate = is_compatible env consumer candidate).
Proof.
  intros Hx Hy. apply is_compatible_iff_parts in Hx. apply is_compatible_iff_parts in Hy.
  destruct Hx as (Tx & Lx & Wx & Mx), Hy as (Ty & Ly & Wy & My).
  split; [|split; [|split]].
  - apply is_compatible_iff_parts. repeat split; congruence.
  - apply is_compatible_iff_parts. repeat split; congruence.
  - intros Hne. unfold is_compatible.
    destruct (Z.eqb_spec (e_type (elf_hdr consumer)) (ET_DYN env)); [contradiction|].
    reflexivity.
  - intros other candidate Hl Hw Hm. unfold is_compatible.
    rewrite Hl, Hw, Hm. reflexivity.
Qed.

Lemma is_compatible_among_candidates_witness :
  is_compatible Fixture.two_paths_env Fixture.lib64 Fixture.lib64 = true /\
  is_compatible Fixture.two_paths_env Fixture.lib64 Fixture.lib64 = true /\
  (e_type (elf_hdr Fixture.two_paths_app) <> ET_DYN Fixture.two_paths_env ->
   is_compatible Fixture.two_paths_env Fixture.two_paths_app Fixture.two_paths_app
   = false) /\
  (forall other candidate,
      is_little_endian other = is_little_endian Fixture.two_paths_app ->
      is_64_bit other = is_64_bit Fixture.two_paths_app ->
      e_machine (elf_hdr other) = e_machine (elf_hdr Fixture.two_paths_app) ->
      is_compatible Fixture.two_paths_env other candidate
      = is_compatible Fixture.two_paths_env Fixture.two_paths_app candidate).
Proof.
  apply (is_compatible_among_candidates
           Fixture.two_paths_env Fixture.two_paths_app Fixture.lib64 Fixture.lib64).
  - reflexivity.
  - reflexivity.
Defined.

(** The executable and the library, which differ in object type, judge the
    library alike. *)
Example consumer_object_type_is_not_looked_at :
  e_type (elf_hdr Fixture.two_paths_app) <> e_type (elf_hdr Fixture.lib64) /\
  is_compatible Fixture.two_paths_env Fixture.two_paths_app Fixture.lib64 = true /\
  is_compatible Fixture.two_paths_env Fixture.lib64 Fixture.lib64 = true.
Proof. repeat split. discriminate. Qed.

(** X2: [candidate_matches] opens the candidate path once and nothing
    else, whatever comes of it; and an exception from [open] or from
    [parse_elf] that is neither OSError nor ElfParsingError leaves the
    probe as it is. *)
Theorem candidate_matches_propagates (env : Env) (current_elf : ElfFile)
    (candidate_path : bytes) (e : exn) :
  caught e = false ->
  os_open env candidate_path = inl e \/
  (exists g, os_open env candidate_path = inr g /\
             parse_elf env g false false = inl e) ->
  candidate_matches env current_elf candidate_path = ([Open candidate_path], inl e).
Proof.
  intros He H. unfold candidate_matches, open_rb, emit, lift; simpl.
  destruct H as [Ho|[g [Ho Hp]]]; rewrite Ho; simpl.
  - destruct e; simpl in He; try discriminate; reflexivity.
  - rewrite Hp. simpl. destruct e; simpl in He; try discriminate; reflexivity.
Qed.

Lemma candidate_matches_propagates_witness :
  candidate_matches Fixture.broken_parser_env Fixture.lib64 (b "/A/libx.so")
  = ([Open (b "/A/libx.so")], inl TypeError).
Proof.
  apply (candidate_matches_propagates Fixture.broken_parser_env Fixture.lib64
           (b "/A/libx.so") TypeError).
  - reflexivity.
  - right. exists tt. split; reflexivity.
Defined.

(** ** What becomes of the needed entries *)

Lemma first_usable_found (env : Env) (parsed_elf : ElfFile) (rpaths : list bytes)
    (lib candidate : bytes) :
  first_usable env parsed_elf rpaths lib = Some candidate ->
  usable env parsed_elf candidate = true /\
  In candidate (probes env parsed_elf lib rpaths) /\
  exists entry, In entry rpaths /\ candidate = os_path.join entry lib.
Proof.
  unfold first_usable.
  induction rpaths as [|rpath rpaths IH]; simpl; [discriminate|].
  destruct (usable env parsed_elf (os_path.join rpath lib)) eqn:E.
  - intros H. injection H as <-. split; [assumption|]. split; [left; reflexivity|].
    exists rpath. auto.
  - intros H. destruct (IH H) as [Hu [Hp [entry [Hin Heq]]]].
    split; [assumption|]. split; [right; assumption|].
    exists entry. auto.
Qed.

(** X3: every needed entry is accounted for, and nothing else is: an entry
    is a bare name on the allowlist, or a key of [resolved], or an element
    of [unresolved]; and the keys of [resolved] and the elements of
    [unresolved] are needed entries. *)
Theorem needed_entries_accounted (env : Env) (parsed_elf : ElfFile) (origin : bytes) :
  well_behaved env ->
  exists log problem,
    resolve_needed env parsed_elf origin = (log, inr problem) /\
    (forall lib,
        In lib (dt_needed_strs parsed_elf) ->
        (contains_byte sep lib = false /\ should_be_resolved lib = ret false) \/
        In lib (dict_keys (resolved problem)) \/
        In lib (unresolved problem)) /\
    (forall lib,
        In lib (dict_keys (resolved problem)) \/ In lib (unresolved problem) ->
        In lib (dt_needed_strs parsed_elf)).
Proof.
  intros Hwb.
  exists (map Open (probed_paths env parsed_elf origin)),
         (problem_of env parsed_elf origin).
  split; [apply resolve_needed_pure; assumption|].
  split.
  - intros lib Hin.
    rewrite should_be_resolved_wanted, problem_of_resolved_key,
      problem_of_unresolved, !in_app_iff.
    rewrite relative_direct_libs_of_In, failed_search_libs_In,
      failed_direct_libs_In, !direct_libs_of_In, !search_libs_of_In.
    destruct (contains_byte sep lib) eqn:Es.
    + destruct (os_path.isabs lib) eqn:Ea.
      * destruct (usable env parsed_elf lib) eqn:Eu; tauto.
      * tauto.
    + destruct (wanted lib) eqn:Ew; [|left; split; reflexivity].
      destruct (first_usable env parsed_elf (absolute_rpaths_of parsed_elf origin) lib)
        eqn:Ef.
      * right; left; right. repeat split; try assumption. congruence.
      * right; right; right; left. tauto.
  - intros lib.
    rewrite problem_of_resolved_key, problem_of_unresolved, !in_app_iff.
    rewrite relative_direct_libs_of_In, failed_search_libs_In,
      failed_direct_libs_In, !direct_libs_of_In, !search_libs_of_In.
    tauto.
Qed.

Lemma needed_entries_accounted_witness :
  exists log problem,
    resolve_needed Fixture.repeated_env Fixture.repeated_app Fixture.app_origin
    = (log, inr problem) /\
    (forall lib,
        In lib (dt_needed_strs Fixture.repeated_app) ->
        (contains_byte sep lib = false /\ should_be_resolved lib = ret false) \/
        In lib (dict_keys (resolved problem)) \/
        In lib (unresolved problem)) /\
    (forall lib,
        In lib (dict_keys (resolved problem)) \/ In lib (unresolved problem) ->
        In lib (dt_needed_strs Fixture.repeated_app)).
Proof.
  apply (needed_entries_accounted
           Fixture.repeated_env Fixture.repeated_app Fixture.app_origin).
  apply fixture_well_behaved.
Defined.

(** X4: every path that [resolved] gives was opened during the visit, is
    there and compatible, and is absolute: it is the needed entry itself,
    for a direct reference, or [entry / name] for an absolute search-path
    entry of the file. *)
Theorem resolved_paths_sound (env : Env) (parsed_elf : ElfFile) (origin : bytes) :
  well_behaved env ->
  exists log problem,
    resolve_needed env parsed_elf origin = (log, inr problem) /\
    forall name path,
      dict_get bytes_eqb (resolved problem) name = Some path ->
      In (Open path) log /\
      candidate_matches env parsed_elf path = ([Open path], inr true) /\
      os_path.isabs path = true /\
      ((contains_byte sep name = true /\ path = name) \/
       (contains_byte sep name = false /\
        exists entry,
          In entry (absolute_rpaths_of parsed_elf origin) /\
          path = os_path.join entry name)).
Proof.
  intros Hwb.
  exists (map Open (probed_paths env parsed_elf origin)),
         (problem_of env parsed_elf origin).
  split; [apply resolve_needed_pure; assumption|].
  intros name path. rewrite problem_of_resolved.
  destruct (existsb (bytes_eqb name) (direct_libs_of parsed_elf)
            && usable env parsed_elf name) eqn:Ed.
  - intros H. injection H as <-.
    apply andb_true_iff in Ed. destruct Ed as [Hd Hu].
    apply existsb_bytes_In in Hd.
    pose proof (proj1 (direct_libs_of_In parsed_elf name) Hd) as (_ & Hs & Ha).
    split; [|split; [|split]].
    + apply In_Open_map. unfold probed_paths. apply in_app_iff. right; assumption.
    + rewrite (candidate_matches_usable env parsed_elf name Hwb), Hu. reflexivity.
    + assumption.
    + left. split; [assumption | reflexivity].
  - destruct (existsb (bytes_eqb name) (search_libs_of parsed_elf) && wanted name)
      eqn:Es; [|discriminate].
    intros Hf. apply andb_true_iff in Es. destruct Es as [Hs Hw].
    apply existsb_bytes_In in Hs.
    destruct (first_usable_found env parsed_elf _ name path Hf)
      as (Hu & Hp & entry & Hin & Heq).
    split; [|split; [|split]].
    + apply In_Open_map. unfold probed_paths, searched_paths.
      apply in_app_iff. left. apply in_flat_map. exists name.
      rewrite Hw. split; assumption.
    + rewrite (candidate_matches_usable env parsed_elf path Hwb), Hu. reflexivity.
    + subst path. apply join_isabs.
      unfold absolute_rpaths_of in Hin. apply filter_In in Hin. tauto.
    + right. apply search_libs_of_In in Hs. split; [tauto|].
      exists entry. auto.
Qed.

Lemma resolved_paths_sound_witness :
  exists log problem,
    resolve_needed Fixture.two_paths_env Fixture.two_paths_app Fixture.app_origin
    = (log, inr problem) /\
    forall name path,
      dict_get bytes_eqb (resolved problem) name = Some path ->
      In (Open path) log /\
      candidate_matches Fixture.two_paths_env Fixture.two_paths_app path
      = ([Open path], inr true) /\
      os_path.isabs path = true /\
      ((contains_byte sep name = true /\ path = name) \/
       (contains_byte sep name = false /\
        exists entry,
          In entry (absolute_rpaths_of Fixture.two_paths_app Fixture.app_origin) /\
          path = os_path.join entry name)).
Proof.
  apply (resolved_paths_sound
           Fixture.two_paths_env Fixture.two_paths_app Fixture.app_origin).
  apply fixture_well_behaved.
Defined.

(** ** What [visit_file] opens *)

(** X5: the visit of a file opens the file itself and otherwise absolute
    paths only, and sends nothing to [tty.error]. *)
Theorem visit_file_opens_absolute_paths (env : Env) (root rel_path : str) (depth : nat)
    (problems : dict str Problem) (path : bytes) :
  well_behaved env ->
  utf8.encode (os_path.join_str root rel_path) = inr path ->
  forall ev,
    In ev (events (visit_file env root rel_path depth problems)) ->
    ev = Open path \/ exists p, ev = Open p /\ os_path.isabs p = true.
Proof.
  intros Hwb Hpath ev.
  rewrite (visit_file_pure env root rel_path depth problems path Hwb Hpath).
  destruct (parsed_at env path) as [parsed_elf|]; [destruct (has_needed parsed_elf)|];
    unfold events; simpl.
  - intros [<-|H]; [left; reflexivity|]. right.
    apply in_map_iff in H. destruct H as [p [<- Hp]].
    exists p. split; [reflexivity|].
    apply (probed_paths_absolute env parsed_elf (os_path.dirname path)), Hp.
  - intros [<-|[]]. left; reflexivity.
  - intros [<-|[]]. left; reflexivity.
Qed.

Lemma visit_file_opens_absolute_paths_witness :
  utf8.encode (os_path.join_str (u "/opt/pkg") (u "bin/app")) = inr Fixture.app_path /\
  forall ev,
    In ev (events (visit_file Fixture.relative_rpath_env (u "/opt/pkg") (u "bin/app")
                     1 [])) ->
    ev = Open Fixture.app_path \/ exists p, ev = Open p /\ os_path.isabs p = true.
Proof.
  split; [vm_compute; reflexivity|].
  apply (visit_file_opens_absolute_paths Fixture.relative_rpath_env (u "/opt/pkg")
           (u "bin/app") 1 [] Fixture.app_path).
  - apply fixture_well_behaved.
  - vm_compute. reflexivity.
Defined.

Lemma searched_paths_no_rpaths (env : Env) (parsed_elf : ElfFile) (libs : list bytes) :
  searched_paths env parsed_elf [] libs = [].
Proof.
  unfold searched_paths. induction libs as [|lib libs IH]; simpl; [reflexivity|].
  destruct (wanted lib); simpl; exact IH.
Qed.

(** X6: when the file has no absolute search path (no RPATH, or relative
    entries only), no bare name resolves: the only paths opened are the
    absolute direct references, and a bare needed name is in [unresolved]
    exactly when it is off the allowlist. *)
Theorem no_search_path_no_resolution (env : Env) (parsed_elf : ElfFile)
    (origin : bytes) :
  well_behaved env ->
  absolute_rpaths_of parsed_elf origin = [] ->
  exists problem,
    resolve_needed env parsed_elf origin
    = (map Open (direct_libs_of parsed_elf), inr problem) /\
    forall lib,
      In lib (dt_needed_strs parsed_elf) ->
      contains_byte sep lib = false ->
      ~ In lib (dict_keys (resolved problem)) /\
      (In lib (unresolved problem) <-> should_be_resolved lib = ret true).
Proof.
  intros Hwb Hnone.
  exists (problem_of env parsed_elf origin).
  split.
  - rewrite (resolve_needed_pure env Hwb). unfold probed_paths.
    rewrite Hnone, searched_paths_no_rpaths. reflexivity.
  - intros lib Hin Hsep.
    rewrite should_be_resolved_wanted, problem_of_resolved_key,
      problem_of_unresolved, !in_app_iff.
    rewrite relative_direct_libs_of_In, failed_search_libs_In,
      failed_direct_libs_In, !direct_libs_of_In, !search_libs_of_In, Hnone.
    unfold first_usable; simpl. split.
    + intros [H|H]; [|destruct H as (_ & _ & H); apply H; reflexivity].
      destruct H as [(_ & H & _) _]. congruence.
    + split.
      * intros [H|[H|H]].
        -- destruct H as (_ & H & _). congruence.
        -- destruct H as (_ & -> & _). reflexivity.
        -- destruct H as [(_ & H & _) _]. congruence.
      * intros H. apply ret_inj in H. right; left. tauto.
Qed.

Lemma no_search_path_no_resolution_witness :
  exists problem,
    resolve_needed Fixture.no_rpath_env Fixture.no_rpath_app Fixture.app_origin
    = (map Open (direct_libs_of Fixture.no_rpath_app), inr problem) /\
    forall lib,
      In lib (dt_needed_strs Fixture.no_rpath_app) ->
      contains_byte sep lib = false ->
      ~ In lib (dict_keys (resolved problem)) /\
      (In lib (unresolved problem) <-> should_be_resolved lib = ret true).
Proof.
  apply (no_search_path_no_resolution
           Fixture.no_rpath_env Fixture.no_rpath_app Fixture.app_origin).
  - apply fixture_well_behaved.
  - reflexivity.
Defined.

(** ** What [visit_file] does to [problems] *)

Lemma dict_set_fresh {V} (d : dict str V) (k : str) (v : V) :
  ~ In k (dict_keys d) -> dict_set str_eqb d k v = d ++ [(k, v)].
Proof.
  induction d as [|[k0 v0] d IH]; simpl; intros H.
  - reflexivity.
  - destruct (str_eqb k0 k) eqn:E.
    + apply str_eqb_eq in E. tauto.
    + rewrite IH; [reflexivity | tauto].
Qed.

Lemma dict_set_known_keys {V} (d : dict str V) (k : str) (v : V) :
  In k (dict_keys d) -> dict_keys (dict_set str_eqb d k v) = dict_keys d.
Proof.
  induction d as [|[k0 v0] d IH]; simpl; intros H.
  - destruct H.
  - destruct (str_eqb k0 k) eqn:E; simpl.
    + reflexivity.
    + rewrite IH; [reflexivity|]. destruct H as [H|H]; [|assumption].
      subst k0. rewrite (proj2 (str_eqb_eq k k) eq_refl) in E. discriminate.
Qed.

Lemma dict_get_set_other {V} (d : dict str V) (k : str) (v : V) (k' : str) :
  k' <> k ->
  dict_get str_eqb (dict_set str_eqb d k v) k' = dict_get str_eqb d k'.
Proof.
  intros Hne. induction d as [|[k0 v0] d IH]; simpl.
  - destruct (str_eqb k k') eqn:E; [|reflexivity].
    apply str_eqb_eq in E. congruence.
  - destruct (str_eqb k0 k) eqn:E; simpl.
    + apply str_eqb_eq in E. subst k0.
      destruct (str_eqb k k') eqn:E'; [|reflexivity].
      apply str_eqb_eq in E'. congruence.
    + rewrite IH. reflexivity.
Qed.

Lemma In_dec_str (k : str) (l : list str) : In k l \/ ~ In k l.
Proof.
  induction l as [|x l IH]; simpl; [tauto|].
  destruct (str_eqb x k) eqn:E.
  - apply str_eqb_eq in E. tauto.
  - assert (x <> k) by (intros ->; rewrite (proj2 (str_eqb_eq k k) eq_refl) in E;
                        discriminate).
    tauto.
Qed.

(** X7: the visit of a file keeps what [problems] held: the earlier keys
    stay in their order, followed at most by the file's own key, and the
    entry of every other file is what it was. *)
Theorem visit_file_keeps_earlier_entries (env : Env) (root rel_path : str)
    (depth : nat) (problems : dict str Problem) (path : bytes) :
  well_behaved env ->
  utf8.encode (os_path.join_str root rel_path) = inr path ->
  exists log problems',
    visit_file env root rel_path depth problems = (log, inr problems') /\
    (dict_keys problems' = dict_keys problems \/
     (~ In rel_path (dict_keys problems) /\
      dict_keys problems' = dict_keys problems ++ [rel_path])) /\
    forall other,
      other <> rel_path ->
      dict_get str_eqb problems' other = dict_get str_eqb problems other.
Proof.
  intros Hwb Hpath.
  rewrite (visit_file_pure env root rel_path depth problems path Hwb Hpath).
  assert (Hsame : exists log problems',
             ([Open path], @inr exn _ problems) = (log, inr problems') /\
             (dict_keys problems' = dict_keys problems \/
              (~ In rel_path (dict_keys problems) /\
               dict_keys problems' = dict_keys problems ++ [rel_path])) /\
             forall other, other <> rel_path ->
               dict_get str_eqb problems' other = dict_get str_eqb problems other).
  { eexists. eexists. split; [reflexivity|]. split; [left; reflexivity|]. reflexivity. }
  destruct (parsed_at env path) as [parsed_elf|]; [|exact Hsame].
  destruct (has_needed parsed_elf); [|exact Hsame].
  eexists. eexists. split; [reflexivity|].
  unfold record_problem.
  destruct (truthy _ || truthy _).
  - split.
    + destruct (In_dec_str rel_path (dict_keys problems)) as [Hin|Hnin].
      * left. apply dict_set_known_keys, Hin.
      * right. split; [assumption|].
        rewrite (dict_set_fresh problems rel_path _ Hnin).
        unfold dict_keys. rewrite map_app. reflexivity.
    + intros other Hne. apply dict_get_set_other, Hne.
  - split; [left; reflexivity|]. reflexivity.
Qed.

Lemma visit_file_keeps_earlier_entries_witness :
  exists log problems',
    visit_file Fixture.missing_env (u "/opt/pkg") (u "bin/app") 1
      Fixture.earlier_problems
    = (log, inr problems') /\
    (dict_keys problems' = dict_keys Fixture.earlier_problems \/
     (~ In (u "bin/app") (dict_keys Fixture.earlier_problems) /\
      dict_keys problems' = dict_keys Fixture.earlier_problems ++ [u "bin/app"])) /\
    forall other,
      other <> u "bin/app" ->
      dict_get str_eqb problems' other
      = dict_get str_eqb Fixture.earlier_problems other.
Proof.
  apply (visit_file_keeps_earlier_entries Fixture.missing_env (u "/opt/pkg")
           (u "bin/app") 1 Fixture.earlier_problems Fixture.app_path).
  - apply fixture_well_behaved.
  - vm_compute. reflexivity.
Defined.

(** ** The path of the visited file *)

Lemma encode_char_surrogate (n : N) :
  (55296 <= n <= 57343)%N -> utf8.encode_char n = None.
Proof.
  intros H. unfold utf8.encode_char.
  destruct (N.ltb_spec n 128); [lia|].
  destruct (N.ltb_spec n 2048); [lia|].
  destruct (N.ltb_spec n 65536); [|lia].
  destruct (N.leb_spec 55296 n); [|lia].
  destruct (N.leb_spec n 57343); [|lia].
  reflexivity.
Qed.

Lemma encode_opt_surrogate (s : str) (n : N) :
  In n s -> (55296 <= n <= 57343)%N -> utf8.encode_opt s = None.
Proof.
  intros Hin Hn. induction s as [|c s IH]; simpl; [destruct Hin|].
  destruct Hin as [->|Hin].
  - rewrite (encode_char_surrogate n Hn). reflexivity.
  - rewrite (IH Hin). destruct (utf8.encode_char c); reflexivity.
Qed.

Lemma In_join_str (a p : str) (n : N) : In n p -> In n (os_path.join_str a p).
Proof.
  intros H. unfold os_path.join_str.
  destruct p as [|c p']; [destruct H|].
  destruct (N.eqb c os_path.usep); [assumption|].
  destruct (rev a) as [|d r].
  - apply in_or_app. right; assumption.
  - destruct (N.eqb d os_path.usep); apply in_or_app; right;
      [assumption | right; assumption].
Qed.

(** X8: a file whose relative path holds a surrogate code point, which is
    how a file name that is not UTF-8 reaches the visitor, is not analysed:
    encoding the path raises UnicodeEncodeError before anything is opened,
    and the exception leaves [visit_file]. *)
Theorem visit_file_surrogate_path (env : Env) (root rel_path : str) (depth : nat)
    (problems : dict str Problem) (n : N) :
  In n rel_path ->
  (55296 <= n <= 57343)%N ->
  visit_file env root rel_path depth problems = ([], inl UnicodeEncodeError).
Proof.
  intros Hin Hn. unfold visit_file, utf8.encode.
  rewrite (encode_opt_surrogate (os_path.join_str root rel_path) n
             (In_join_str root rel_path n Hin) Hn).
  reflexivity.
Qed.

Lemma visit_file_surrogate_path_witness :
  visit_file Fixture.missing_env (u "/opt/pkg") Fixture.surrogate_name 0 []
  = ([], inl UnicodeEncodeError).
Proof.
  apply (visit_file_surrogate_path Fixture.missing_env (u "/opt/pkg")
           Fixture.surrogate_name 0 [] 56575%N).
  - simpl. tauto.
  - lia.
Defined.

Lemma forallb_rev {A} (f : A -> bool) (l : list A) :
  forallb f (rev l) = forallb f l.
Proof.
  induction l as [|x l IH]; simpl; [reflexivity|].
  rewrite forallb_app, IH. simpl. rewrite andb_true_r. apply andb_comm.
Qed.

Lemma lstrip_sep_keeps_last (l : bytes) (c : ascii) :
  forallb is_sep (l ++ [c]) = false ->
  exists m, os_path.lstrip_sep (l ++ [c]) = m ++ [c].
Proof.
  induction l as [|d l IH]; simpl.
  - rewrite andb_true_r. intros ->. exists []. reflexivity.
  - destruct (is_sep d); simpl.
    + exact IH.
    + intros _. exists (d :: l). reflexivity.
Qed.

Lemma rstrip_sep_keeps_first (c : ascii) (t : bytes) :
  forallb is_sep (c :: t) = false ->
  exists t', os_path.rstrip_sep (c :: t) = c :: t'.
Proof.
  intros H. unfold os_path.rstrip_sep. simpl rev.
  destruct (lstrip_sep_keeps_last (rev t) c) as [m Hm].
  - rewrite forallb_app, forallb_rev. simpl in *.
    rewrite andb_true_r, andb_comm. exact H.
  - rewrite Hm, rev_app_distr. simpl. exists (rev m). reflexivity.
Qed.

Lemma head_of_absolute (p : bytes) :
  exists h, os_path.head_of (sep :: p) = sep :: h.
Proof.
  simpl. destruct (contains_byte sep p).
  - eexists. reflexivity.
  - exists []. reflexivity.
Qed.

Lemma dirname_absolute (path : bytes) :
  os_path.isabs path = true -> os_path.isabs (os_path.dirname path) = true.
Proof.
  destruct path as [|c p]; [discriminate|].
  unfold os_path.isabs at 1. cbn [startswith]. rewrite andb_true_r. intros Hc.
  apply byte_eqb_eq in Hc. subst c.
  unfold os_path.dirname.
  destruct (head_of_absolute p) as [h ->].
  cbn [truthy andb].
  destruct (forallb is_sep (sep :: h)) eqn:E; cbn [negb].
  - reflexivity.
  - destruct (rstrip_sep_keeps_first sep h E) as [t' ->]. reflexivity.
Qed.

Lemma encode_absolute (s : str) (path : bytes) :
  utf8.encode (os_path.usep :: s) = inr path -> os_path.isabs path = true.
Proof.
  unfold utf8.encode. simpl.
  destruct (utf8.encode_opt s) as [x|]; [|discriminate].
  intros H. injection H as <-. reflexivity.
Qed.

Lemma join_str_absolute (root' rel_path : str) :
  exists s, os_path.join_str (os_path.usep :: root') rel_path = os_path.usep :: s.
Proof.
  unfold os_path.join_str.
  destruct rel_path as [|c p].
  - destruct (rev (os_path.usep :: root')) as [|d r]; [eexists; reflexivity|].
    destruct (N.eqb d os_path.usep); eexists; reflexivity.
  - destruct (N.eqb c os_path.usep) eqn:E.
    + apply N.eqb_eq in E. subst c. eexists; reflexivity.
    + destruct (rev (os_path.usep :: root')) as [|d r]; [eexists; reflexivity|].
      destruct (N.eqb d os_path.usep); eexists; reflexivity.
Qed.

(** X9: under a root that is an absolute path, the path of the visited file
    and its directory are absolute, so an RPATH entry that starts with
    [$ORIGIN] becomes an absolute search path: it is searched, and it is
    not among the file's [relative_rpaths]. *)
Theorem origin_entries_are_searched (root' rel_path : str) (path : bytes)
    (parsed_elf : ElfFile) (rest : bytes) :
  utf8.encode (os_path.join_str (os_path.usep :: root') rel_path) = inr path ->
  has_rpath parsed_elf = true ->
  In (ORIGIN ++ rest) (bytes_split ":"%char (dt_rpath_str parsed_elf)) ->
  let D := os_path.dirname path in
  os_path.isabs path = true /\
  os_path.isabs D = true /\
  In (D ++ bytes_replace ORIGIN D rest) (absolute_rpaths_of parsed_elf D) /\
  ~ In (D ++ bytes_replace ORIGIN D rest) (relative_rpaths_of parsed_elf D).
Proof.
  intros Hpath Hrpath Hin D.
  destruct (join_str_absolute root' rel_path) as [s Hs]. rewrite Hs in Hpath.
  pose proof (encode_absolute s path Hpath) as Habs.
  pose proof (dirname_absolute path Habs) as HD. fold D in HD.
  assert (Hentry : os_path.isabs (D ++ bytes_replace ORIGIN D rest) = true).
  { destruct D as [|c D']; [discriminate|]. exact HD. }
  split; [assumption|]. split; [assumption|]. split.
  - unfold absolute_rpaths_of. apply filter_In. split; [|assumption].
    unfold interpolated_rpaths. rewrite Hrpath.
    rewrite <- replace_origin_token. apply in_map.
    apply filter_In. split; [assumption | reflexivity].
  - unfold relative_rpaths_of. rewrite filter_In, Hentry. simpl.
    intros [_ H]. discriminate.
Qed.

Lemma origin_entries_are_searched_witness :
  let D := os_path.dirname Fixture.app_path in
  os_path.isabs Fixture.app_path = true /\
  os_path.isabs D = true /\
  In (D ++ bytes_replace ORIGIN D (b "/../lib"))
     (absolute_rpaths_of Fixture.relative_rpath_app D) /\
  ~ In (D ++ bytes_replace ORIGIN D (b "/../lib"))
       (relative_rpaths_of Fixture.relative_rpath_app D).
Proof.
  apply (origin_entries_are_searched (u "opt/pkg") (u "bin/app") Fixture.app_path
           Fixture.relative_rpath_app (b "/../lib")).
  - vm_compute. reflexivity.
  - reflexivity.
  - left. reflexivity.
Defined.

(** ** UTF-8 and [maybe_decode] *)

Ltac div_lia := zify; Z.to_euclidean_division_equations; lia.

Lemma byte_of_N_of_ascii (c : ascii) : utf8.byte_of (N_of_ascii c) = c.
Proof. apply ascii_N_embedding. Qed.

Lemma continuation_spec (lo hi : N) (c : ascii) (n : N) :
  utf8.continuation lo hi c = Some n ->
  (lo <= N_of_ascii c <= hi)%N /\ n = (N_of_ascii c - 128)%N.
Proof.
  unfold utf8.continuation.
  destruct (N.leb_spec lo (N_of_ascii c)); simpl; [|discriminate].
  destruct (N.leb_spec (N_of_ascii c) hi); [|discriminate].
  intros Heq. injection Heq as <-. lia.
Qed.

Lemma encode_char_1 (c0 : ascii) :
  (N_of_ascii c0 < 128)%N -> utf8.encode_char (N_of_ascii c0) = Some [c0].
Proof.
  intros H. unfold utf8.encode_char.
  destruct (N.ltb_spec (N_of_ascii c0) 128); [|lia].
  rewrite byte_of_N_of_ascii. reflexivity.
Qed.

Lemma encode_char_2 (c0 c1 : ascii) (n1 : N) :
  (194 <= N_of_ascii c0 <= 223)%N ->
  utf8.continuation 128 191 c1 = Some n1 ->
  utf8.encode_char ((N_of_ascii c0 - 192) * 64 + n1) = Some [c0; c1].
Proof.
  intros H0 H1. apply continuation_spec in H1. destruct H1 as [H1 ->].
  unfold utf8.encode_char.
  set (v := ((N_of_ascii c0 - 192) * 64 + (N_of_ascii c1 - 128))%N).
  destruct (N.ltb_spec v 128); [subst v; lia|].
  destruct (N.ltb_spec v 2048); [|subst v; lia].
  replace (192 + v / 64)%N with (N_of_ascii c0) by (subst v; div_lia).
  replace (128 + v mod 64)%N with (N_of_ascii c1) by (subst v; div_lia).
  rewrite !byte_of_N_of_ascii. reflexivity.
Qed.

Lemma encode_char_3 (c0 c1 c2 : ascii) (n1 n2 : N) :
  (224 <= N_of_ascii c0 <= 239)%N ->
  utf8.continuation (if (N_of_ascii c0 =? 224)%N then 160 else 128)
                    (if (N_of_ascii c0 =? 237)%N then 159 else 191) c1 = Some n1 ->
  utf8.continuation 128 191 c2 = Some n2 ->
  utf8.encode_char ((N_of_ascii c0 - 224) * 4096 + n1 * 64 + n2) = Some [c0; c1; c2].
Proof.
  intros H0 H1 H2.
  apply continuation_spec in H1. destruct H1 as [H1 ->].
  apply continuation_spec in H2. destruct H2 as [H2 ->].
  destruct (N.eqb_spec (N_of_ascii c0) 224), (N.eqb_spec (N_of_ascii c0) 237);
    try lia;
    unfold utf8.encode_char;
    set (v := ((N_of_ascii c0 - 224) * 4096 + (N_of_ascii c1 - 128) * 64
               + (N_of_ascii c2 - 128))%N);
    (destruct (N.ltb_spec v 128); [subst v; lia|]);
    (destruct (N.ltb_spec v 2048); [subst v; lia|]);
    (destruct (N.ltb_spec v 65536); [|subst v; lia]);
    (assert (Hs : ((55296 <=? v) && (v <=? 57343) = false)%N)
       by (apply andb_false_iff;
           destruct (N.leb_spec 55296 v); [right; apply N.leb_gt; subst v; lia
                                          | left; reflexivity]));
    rewrite Hs;
    replace (224 + v / 4096)%N with (N_of_ascii c0) by (subst v; div_lia);
    replace (128 + (v / 64) mod 64)%N with (N_of_ascii c1) by (subst v; div_lia);
    replace (128 + v mod 64)%N with (N_of_ascii c2) by (subst v; div_lia);
    rewrite !byte_of_N_of_ascii; reflexivity.
Qed.

Lemma encode_char_4 (c0 c1 c2 c3 : ascii) (n1 n2 n3 : N) :
  (240 <= N_of_ascii c0 <= 244)%N ->
  utf8.continuation (if (N_of_ascii c0 =? 240)%N then 144 else 128)
                    (if (N_of_ascii c0 =? 244)%N then 143 else 191) c1 = Some n1 ->
  utf8.continuation 128 191 c2 = Some n2 ->
  utf8.continuation 128 191 c3 = Some n3 ->
  utf8.encode_char ((N_of_ascii c0 - 240) * 262144 + n1 * 4096 + n2 * 64 + n3)
  = Some [c0; c1; c2; c3].
Proof.
  intros H0 H1 H2 H3.
  apply continuation_spec in H1. destruct H1 as [H1 ->].
  apply continuation_spec in H2. destruct H2 as [H2 ->].
  apply continuation_spec in H3. destruct H3 as [H3 ->].
  destruct (N.eqb_spec (N_of_ascii c0) 240), (N.eqb_spec (N_of_ascii c0) 244);
    try lia;
    unfold utf8.encode_char;
    set (v := ((N_of_ascii c0 - 240) * 262144 + (N_of_ascii c1 - 128) * 4096
               + (N_of_ascii c2 - 128) * 64 + (N_of_ascii c3 - 128))%N);
    (destruct (N.ltb_spec v 128); [subst v; lia|]);
    (destruct (N.ltb_spec v 2048); [subst v; lia|]);
    (destruct (N.ltb_spec v 65536); [subst v; lia|]);
    (destruct (N.ltb_spec v 1114112); [|subst v; lia]);
    replace (240 + v / 262144)%N with (N_of_ascii c0) by (subst v; div_lia);
    replace (128 + (v / 4096) mod 64)%N with (N_of_ascii c1) by (subst v; div_lia);
    replace (128 + (v / 64) mod 64)%N with (N_of_ascii c2) by (subst v; div_lia);
    replace (128 + v mod 64)%N with (N_of_ascii c3) by (subst v; div_lia);
    rewrite !byte_of_N_of_ascii; reflexivity.
Qed.

Lemma option_map_cons_some (v : N) (r : option str) (s : str) :
  option_map (cons v) r = Some s -> exists s', r = Some s' /\ s = v :: s'.
Proof.
  destruct r as [s'|]; simpl; [|discriminate].
  intros H. injection H as <-. exists s'. auto.
Qed.

Lemma encode_opt_cons (v : N) (s : str) (x y : bytes) :
  utf8.encode_char v = Some x -> utf8.encode_opt s = Some y ->
  utf8.encode_opt (v :: s) = Some (x ++ y).
Proof. intros Hx Hy. simpl. rewrite Hx, Hy. reflexivity. Qed.

Lemma decode_then_encode_bounded (n : nat) (x : bytes) (s : str) :
  List.length x <= n ->
  utf8.decode_opt x = Some s -> utf8.encode_opt s = Some x.
Proof.
  revert x s. induction n as [|n IH]; intros x s Hlen.
  - destruct x; [|simpl in Hlen; lia]. simpl. intros H; injection H as <-. reflexivity.
  - destruct x as [|c0 x1]; [simpl; intros H; injection H as <-; reflexivity|].
    simpl in Hlen. cbn [utf8.decode_opt]. cbv zeta.
    destruct (N.ltb_spec (N_of_ascii c0) 128) as [H1|H1].
    { intros H. apply option_map_cons_some in H. destruct H as [s' [Hd ->]].
      apply (encode_opt_cons _ _ [c0] x1); [apply encode_char_1, H1|].
      apply IH; [lia | assumption]. }
    destruct (N.leb_spec 194 (N_of_ascii c0)) as [H2|H2];
      [destruct (N.leb_spec (N_of_ascii c0) 223) as [H3|H3]|]; cbn [andb].
    { destruct x1 as [|c1 x2]; [discriminate|].
      destruct (utf8.continuation 128 191 c1) as [n1|] eqn:E1; [|discriminate].
      intros H. apply option_map_cons_some in H. destruct H as [s' [Hd ->]].
      apply (encode_opt_cons _ _ [c0; c1] x2).
      - apply encode_char_2; [lia | assumption].
      - apply IH; [simpl in Hlen; lia | assumption]. }
    all: destruct (N.leb_spec 224 (N_of_ascii c0)) as [H4|H4];
      [destruct (N.leb_spec (N_of_ascii c0) 239) as [H5|H5]|]; cbn [andb].
    all: try (destruct x1 as [|c1 [|c2 x3]]; try discriminate;
      destruct (utf8.continuation _ _ c1) as [n1|] eqn:E1; [|discriminate];
      destruct (utf8.continuation 128 191 c2) as [n2|] eqn:E2; [|discriminate];
      intros H; apply option_map_cons_some in H; destruct H as [s' [Hd ->]];
      apply (encode_opt_cons _ _ [c0; c1; c2] x3);
      [apply encode_char_3; [lia | assumption | assumption]
      |apply IH; [simpl in Hlen; lia | assumption]]).
    all: destruct (N.leb_spec 240 (N_of_ascii c0)) as [H6|H6];
      [destruct (N.leb_spec (N_of_ascii c0) 244) as [H7|H7]|]; cbn [andb];
      try discriminate.
    all: try (destruct x1 as [|c1 [|c2 [|c3 x4]]]; try discriminate;
      destruct (utf8.continuation _ _ c1) as [n1|] eqn:E1; [|discriminate];
      destruct (utf8.continuation 128 191 c2) as [n2|] eqn:E2; [|discriminate];
      destruct (utf8.continuation 128 191 c3) as [n3|] eqn:E3; [|discriminate];
      intros H; apply option_map_cons_some in H; destruct H as [s' [Hd ->]];
      apply (encode_opt_cons _ _ [c0; c1; c2; c3] x4);
      [apply encode_char_4; [lia | assumption | assumption | assumption]
      |apply IH; [simpl in Hlen; lia | assumption]]).
Qed.

Lemma decode_then_encode (x : bytes) (s : str) :
  utf8.decode_opt x = Some s -> utf8.encode_opt s = Some x.
Proof. apply (decode_then_encode_bounded (List.length x)). apply le_n. Qed.

(** X10: [maybe_decode] loses nothing and raises nothing: it returns the
    text whose UTF-8 encoding is the very bytes it was given, or, when the
    bytes are not UTF-8, those bytes unchanged. *)
Theorem maybe_decode_lossless (byte_str : bytes) :
  (exists s,
      maybe_decode byte_str = ret (Str s) /\ utf8.encode s = inr byte_str) \/
  (maybe_decode byte_str = ret (Bytes byte_str) /\
   utf8.decode byte_str = inl UnicodeDecodeError).
Proof.
  rewrite maybe_decode_pure. unfold utf8.decode, utf8.encode.
  destruct (utf8.decode_opt byte_str) as [s|] eqn:E.
  - left. exists s. rewrite (decode_then_encode byte_str s E). auto.
  - right. auto.
Qed.

(** ** The text of the report and the outcome of [post_install] *)

Lemma bind_raise {A B} (e : exn) (f : A -> M B) : bind (raise e) f = raise e.
Proof. reflexivity. Qed.

Lemma format_decoded (x : bytes) :
  format (match utf8.decode_opt x with
          | Some s => Str s
          | None => Bytes x
          end) = shown x.
Proof. unfold shown. destruct (utf8.decode_opt x); reflexivity. Qed.

Lemma write_unresolved_text (names : list bytes) (output : str) :
  write_unresolved names output = ret (output ++ flat_map unresolved_line names).
Proof.
  revert output. induction names as [|name names IH]; intros output;
    cbn [write_unresolved flat_map].
  - rewrite app_nil_r. reflexivity.
  - run_writes. rewrite IH, format_decoded, <- app_assoc. reflexivity.
Qed.

Lemma write_resolved_text (items : list (bytes * bytes)) (output : str) :
  write_resolved items output
  = if existsb unwritable items then raise TypeError
    else ret (output ++ flat_map resolved_line items).
Proof.
  revert output. induction items as [|[needed full_path] items IH]; intros output;
    cbn [write_resolved flat_map existsb].
  - rewrite app_nil_r. reflexivity.
  - run_writes. unfold unwritable at 1, resolved_line at 1, shown.
    destruct (bytes_eqb needed full_path) eqn:E; cbn [andb].
    + run_writes. destruct (utf8.decode_opt needed) as [s|]; cbn [orb].
      * run_writes. rewrite IH.
        destruct (existsb unwritable items); [reflexivity|].
        rewrite <- !app_assoc. reflexivity.
      * reflexivity.
    + run_writes. rewrite IH, !format_decoded.
      destruct (existsb unwritable items); [reflexivity|].
      unfold shown. rewrite <- !app_assoc. reflexivity.
Qed.

Lemma write_problems_text (problems : dict str Problem) (output : str) :
  write_problems problems output
  = if has_unwritable problems then raise TypeError
    else ret (output ++ flat_map block problems).
Proof.
  unfold has_unwritable.
  revert output. induction problems as [|[path problem] problems IH]; intros output;
    cbn [write_problems flat_map existsb snd].
  - rewrite app_nil_r. reflexivity.
  - run_writes. rewrite write_resolved_text.
    destruct (existsb unwritable (resolved problem)); cbn [orb]; [reflexivity|].
    run_writes. rewrite write_unresolved_text. run_writes. rewrite IH.
    destruct (existsb _ problems); [reflexivity|].
    unfold block. rewrite <- !app_assoc. reflexivity.
Qed.

Lemma unwritable_iff (item : bytes * bytes) :
  unwritable item = true <->
  fst item = snd item /\ utf8.decode (fst item) = inl UnicodeDecodeError.
Proof.
  destruct item as [needed full_path]. unfold unwritable, utf8.decode. simpl.
  rewrite andb_true_iff, bytes_eqb_eq.
  destruct (utf8.decode_opt needed); intuition congruence.
Qed.

(** X11: the loops of [post_install] that write the report give, after
    what was written before, one block per file in the order of
    [problems]: the path, a line per item of [resolved] (the name alone
    when it resolved to itself, [name => path] otherwise), a line
    [name => not found] per element of [unresolved], and an empty line;
    a name that is not UTF-8 is shown as the [repr] of its bytes.  They
    raise TypeError, and write nothing, exactly when some library resolved
    to itself under a name that is not UTF-8. *)
Theorem report_blocks (problems : dict str Problem) (output : str) :
  (write_problems problems output = raise TypeError /\
   exists path problem needed,
     In (path, problem) problems /\
     In (needed, needed) (resolved problem) /\
     utf8.decode needed = inl UnicodeDecodeError) \/
  (write_problems problems output = ret (output ++ flat_map block problems) /\
   forall path problem needed,
     In (path, problem) problems ->
     In (needed, needed) (resolved problem) ->
     exists text, utf8.decode needed = inr text).
Proof.
  rewrite write_problems_text. unfold has_unwritable.
  destruct (existsb _ problems) eqn:E.
  - left. split; [reflexivity|].
    apply existsb_exists in E. destruct E as [[path problem] [Hin E]].
    apply existsb_exists in E. destruct E as [[needed full_path] [Hitem E]].
    apply unwritable_iff in E. simpl in *. destruct E as [<- Hd].
    exists path, problem, needed. auto.
  - right. split; [reflexivity|].
    intros path problem needed Hin Hitem.
    destruct (utf8.decode needed) as [e|text] eqn:Hd; [|exists text; reflexivity].
    exfalso.
    assert (He : e = UnicodeDecodeError).
    { unfold utf8.decode in Hd. destruct (utf8.decode_opt needed); congruence. }
    subst e.
    assert (Ht : existsb
                   (fun entry => existsb unwritable (resolved (snd entry))) problems
                 = true).
    { apply existsb_exists. exists (path, problem). split; [assumption|].
      apply existsb_exists. exists (needed, needed). split; [assumption|].
      apply unwritable_iff. auto. }
    rewrite Ht in E. discriminate.
Qed.

Lemma report_outcome (env : Env) (problems : dict str Problem) :
  report env problems
  = match problems with
    | [] => ([], inr tt)
    | _ :: _ =>
        if has_unwritable problems then ([], inl TypeError)
        else if config_strict env
             then ([], inl (CannotLocateSharedLibraries (report_text problems)))
             else ([TtyError (report_text problems)], inr tt)
    end.
Proof.
  unfold report. destruct problems as [|entry problems]; [reflexivity|].
  cbn [truthy negb]. run_writes. rewrite write_problems_text.
  cbn [app]. unfold report_text.
  destruct (has_unwritable (entry :: problems)); [reflexivity|].
  run_writes. destruct (config_strict env); reflexivity.
Qed.

(** X12: on a Linux or FreeBSD spec that is not external, [post_install]
    opens what the walk of the prefix opens and then: returns in silence
    when the walk found no problem; raises TypeError when some library
    resolved to itself under a name that is not UTF-8; otherwise raises
    [CannotLocateSharedLibraries] with the report under the strict policy,
    and sends the same report to [tty.error] and returns under the other.
    An exception of the walk leaves [post_install] as it is. *)
Theorem post_install_outcome (env : Env) (spec : Spec) (explicit : bool)
    (log : list event) (walked : exn + dict str Problem) :
  external spec = false ->
  platform spec = u "linux" \/ platform spec = u "freebsd" ->
  visit_directory_tree (ResolveSharedElfLibDepsVisitor env) env (prefix spec) []
  = (log, walked) ->
  post_install env spec explicit
  = match walked with
    | inl e => (log, inl e)
    | inr [] => (log, inr tt)
    | inr problems =>
        if has_unwritable problems then (log, inl TypeError)
        else if config_strict env
             then (log, inl (CannotLocateSharedLibraries (report_text problems)))
             else (log ++ [TtyError (report_text problems)], inr tt)
    end.
Proof.
  intros Hext Hplat Hwalk. unfold post_install. rewrite Hext.
  assert (Hp : existsb (str_eqb (platform spec)) [u "linux"; u "freebsd"] = true).
  { destruct Hplat as [-> | ->]; reflexivity. }
  rewrite Hp. cbn [negb orb]. rewrite Hwalk.
  destruct walked as [e|problems]; [reflexivity|].
  unfold bind at 1. rewrite report_outcome.
  destruct problems as [|entry problems]; [rewrite app_nil_r; reflexivity|].
  destruct (has_unwritable (entry :: problems)); [rewrite app_nil_r; reflexivity|].
  destruct (config_strict env); [rewrite app_nil_r; reflexivity | reflexivity].
Qed.

Lemma post_install_outcome_witness :
  let walk :=
    visit_directory_tree (ResolveSharedElfLibDepsVisitor Fixture.no_rpath_env)
      Fixture.no_rpath_env (u "/opt/pkg") [] in
  post_install Fixture.no_rpath_env (Fixture.linux "/opt/pkg") false
  = match outcome walk with
    | inl e => (events walk, inl e)
    | inr [] => (events walk, inr tt)
    | inr problems =>
        if has_unwritable problems then (events walk, inl TypeError)
        else if config_strict Fixture.no_rpath_env
             then (events walk,
                   inl (CannotLocateSharedLibraries (report_text problems)))
             else (events walk ++ [TtyError (report_text problems)], inr tt)
    end.
Proof.
  intros walk.
  apply (post_install_outcome Fixture.no_rpath_env (Fixture.linux "/opt/pkg") false
           (events walk) (outcome walk)).
  - reflexivity.
  - left. reflexivity.
  - apply surjective_pairing.
Defined.

(** The report of that run, in full. *)
Example report_text_runs :
  events (post_install Fixture.no_rpath_env (Fixture.linux "/opt/pkg") false)
  = [Open Fixture.app_path;
     Open (b "/opt/pkg/lib/libbar.so");
     TtyError
       (header
          ++ u "bin/app" ++ nl
          ++ u "        /opt/pkg/lib/libbar.so" ++ nl
          ++ u "        libfoo.so => not found" ++ nl
          ++ nl)].
Proof. vm_compute. reflexivity. Qed.

(** X13: on an external spec, and on a platform that is neither Linux nor
    FreeBSD, [post_install] does nothing: no file is opened, nothing is
    sent to [tty.error] and no exception is raised, whatever the prefix
    holds and whatever the policy is. *)
Theorem post_install_skips (env : Env) (spec : Spec) (explicit : bool) :
  external spec = true \/
  (platform spec <> u "linux" /\ platform spec <> u "freebsd") ->
  post_install env spec explicit = ([], inr tt).
Proof.
  intros H. unfold post_install.
  destruct H as [-> | [Hl Hf]]; [reflexivity|].
  assert (Hp : existsb (str_eqb (platform spec)) [u "linux"; u "freebsd"] = false).
  { cbn [existsb].
    destruct (str_eqb (platform spec) (u "linux")) eqn:E1;
      [apply str_eqb_eq in E1; contradiction|].
    destruct (str_eqb (platform spec) (u "freebsd")) eqn:E2;
      [apply str_eqb_eq in E2; contradiction|].
    reflexivity. }
  rewrite Hp, orb_true_r. reflexivity.
Qed.

Lemma post_install_skips_witness :
  post_install Fixture.missing_env
    {| external := false; platform := u "darwin"; prefix := u "/opt/pkg" |} true
  = ([], inr tt).
Proof.
  apply (post_install_skips Fixture.missing_env).
  right. split; discriminate.
Defined.

(** ** The walk and symlinks *)

Lemma bind_ret_r {A} (m : M A) : bind m (fun x => ret x) = m.
Proof.
  destruct m as [l [e|a]]; simpl; [reflexivity|]. rewrite app_nil_r. reflexivity.
Qed.

Lemma bind_ext {A B} (m : M A) (f g : A -> M B) :
  (forall a, f a = g a) -> bind m f = bind m g.
Proof.
  intros H. destruct m as [l [e|a]]; simpl; [reflexivity|]. rewrite H. reflexivity.
Qed.

Lemma bind_assoc {A B C} (m : M A) (f : A -> M B) (g : B -> M C) :
  bind (bind m f) g = bind m (fun x => bind (f x) g).
Proof.
  destruct m as [l [e|a]]; simpl; [reflexivity|].
  destruct (f a) as [l' [e|y]]; simpl; [reflexivity|].
  destruct (g y) as [l'' r]. rewrite app_assoc. reflexivity.
Qed.

Section WalkLemmas.

Context {S : Type} (visitor : BaseDirectoryVisitor.t S).

Lemma visit_entry_children (root rel_dir : str) (depth : nat)
    (children : list dirent) (state : S) :
  (fix visit_entries (entries : list dirent) (state : S) : M S :=
     match entries with
     | [] => ret state
     | child :: entries' =>
         state' <- visit_entry visitor root rel_dir depth child state ;;
         visit_entries entries' state'
     end) children state
  = visit_entries visitor root rel_dir depth children state.
Proof.
  revert state. induction children as [|child children IH]; intros state.
  - reflexivity.
  - cbn [visit_entries]. apply bind_ext. exact IH.
Qed.

Lemma visit_entries_app (root rel_path : str) (depth : nat)
    (entries1 entries2 : list dirent) (state : S) :
  visit_entries visitor root rel_path depth (entries1 ++ entries2) state
  = state' <- visit_entries visitor root rel_path depth entries1 state ;;
    visit_entries visitor root rel_path depth entries2 state'.
Proof.
  revert state. induction entries1 as [|entry entries1 IH]; intros state.
  - cbn [app visit_entries]. rewrite bind_ret. reflexivity.
  - cbn [app visit_entries]. rewrite bind_assoc. apply bind_ext. exact IH.
Qed.

Lemma visit_entries_one (root rel_path : str) (depth : nat) (entry : dirent)
    (state : S) :
  visit_entries visitor root rel_path depth [entry] state
  = visit_entry visitor root rel_path depth entry state.
Proof. cbn [visit_entries]. apply bind_ret_r. Qed.

End WalkLemmas.

Lemma visit_entry_without_symlinks (env : Env) (root : str) (entry : dirent) :
  forall (rel_path : str) (depth : nat) (problems : dict str Problem),
    visit_entry (ResolveSharedElfLibDepsVisitor env) root rel_path depth entry problems
    = visit_entries (ResolveSharedElfLibDepsVisitor env) root rel_path depth
        (without_symlinks entry) problems.
Proof.
  induction entry as [name|name|name children IH|name children IH]
    using dirent_nested_ind; intros rel_path depth problems.
  - cbn [without_symlinks]. rewrite visit_entries_one. reflexivity.
  - reflexivity.
  - cbn [without_symlinks]. rewrite visit_entries_one.
    cbn [visit_entry]. cbn [BaseDirectoryVisitor.before_visit_dir
                             ResolveSharedElfLibDepsVisitor before_visit_dir].
    rewrite !visit_entry_children.
    generalize (os_path.join_str rel_path name) as rel_dir.
    generalize (Datatypes.S depth) as depth'.
    intros depth' rel_dir. revert problems.
    induction IH as [|child children Hchild _ IHchildren]; intros problems.
    + reflexivity.
    + cbn [flat_map]. rewrite visit_entries_app. cbn [visit_entries].
      rewrite Hchild. apply bind_ext. exact IHchildren.
  - reflexivity.
Qed.

(** X14: symlinks leave no trace in the walk.  With this visitor the walk
    of a directory opens the same files, in the same order, and ends with
    the same [problems] as the walk of the directory without its symlinked
    files and symlinked directories, at every depth. *)
Theorem walk_ignores_symlinks (env : Env) (root rel_path : str) (depth : nat)
    (entries : list dirent) (problems : dict str Problem) :
  visit_entries (ResolveSharedElfLibDepsVisitor env) root rel_path depth
    entries problems
  = visit_entries (ResolveSharedElfLibDepsVisitor env) root rel_path depth
      (flat_map without_symlinks entries) problems.
Proof.
  revert problems. induction entries as [|entry entries IH]; intros problems.
  - reflexivity.
  - cbn [flat_map]. rewrite visit_entries_app. cbn [visit_entries].
    rewrite visit_entry_without_symlinks. apply bind_ext. exact IH.
Qed.

(** A tree with symlinks, walked. *)
Example symlinks_are_not_opened :
  events (visit_entries (ResolveSharedElfLibDepsVisitor Fixture.missing_env)
            (u "/opt/pkg") [] 0 Fixture.linked_tree [])
  = [Open Fixture.app_path; Open (b "/abs/missing.so")].
Proof. vm_compute. reflexivity. Qed.

(** ** The search loop when nothing matches *)

(** X15: a name that no search path resolves costs one open per search
    path, in declared order, and the loop ends without a candidate; and an
    exception that leaves a probe ends the loop at that entry, with the
    later entries unopened. *)
Theorem search_rpaths_exhausts (env : Env) (parsed_elf : ElfFile) (lib : bytes)
    (rpaths : list bytes) :
  (forall rpath, In rpath rpaths ->
     outcome (candidate_matches env parsed_elf (os_path.join rpath lib)) = inr false) ->
  search_rpaths env parsed_elf lib rpaths
  = (map (fun rpath => Open (os_path.join rpath lib)) rpaths, inr None) /\
  forall entry later e,
    outcome (candidate_matches env parsed_elf (os_path.join entry lib)) = inl e ->
    search_rpaths env parsed_elf lib (rpaths ++ entry :: later)
    = (map (fun rpath => Open (os_path.join rpath lib)) (rpaths ++ [entry]), inl e).
Proof.
  intros Hall. split.
  - induction rpaths as [|rpath rpaths IH]; cbn [search_rpaths map].
    + reflexivity.
    + rewrite candidate_matches_split, (Hall rpath (or_introl eq_refl)).
      cbn [bind]. rewrite IH; [reflexivity|].
      intros r Hr. apply Hall. right; assumption.
  - intros entry later e He.
    induction rpaths as [|rpath rpaths IH]; cbn [search_rpaths map app].
    + rewrite candidate_matches_split, He. reflexivity.
    + rewrite candidate_matches_split, (Hall rpath (or_introl eq_refl)).
      cbn [bind]. rewrite IH; [reflexivity|].
      intros r Hr. apply Hall. right; assumption.
Qed.

Lemma search_rpaths_exhausts_witness :
  search_rpaths Fixture.two_paths_env Fixture.two_paths_app (b "libmissing.so")
    [b "/A"; b "/B"]
  = (map (fun rpath => Open (os_path.join rpath (b "libmissing.so")))
         [b "/A"; b "/B"], inr None) /\
  forall entry later e,
    outcome (candidate_matches Fixture.two_paths_env Fixture.two_paths_app
               (os_path.join entry (b "libmissing.so"))) = inl e ->
    search_rpaths Fixture.two_paths_env Fixture.two_paths_app (b "libmissing.so")
      ([b "/A"; b "/B"] ++ entry :: later)
    = (map (fun rpath => Open (os_path.join rpath (b "libmissing.so")))
           ([b "/A"; b "/B"] ++ [entry]), inl e).
Proof.
  apply (search_rpaths_exhausts Fixture.two_paths_env Fixture.two_paths_app
           (b "libmissing.so") [b "/A"; b "/B"]).
  intros rpath [<-|[<-|[]]]; vm_compute; reflexivity.
Defined.

(** ** The package [py-pylint] *)

(** X16: the [ignore] predicate of the package holds for a file name
    exactly when the name starts with [site], then has any character but a
    newline, then [p]; what follows is free.  It holds for [site.py], and
    for [site-packages] and all that lies under it as well. *)
Theorem pylint_ignore_iff (f : str) :
  py_pylint.ignore f = true <->
  exists c rest, f = u "site" ++ c :: u "p" ++ rest /\ c <> py_pylint.newline.
Proof.
  unfold py_pylint.ignore.
  change (py_pylint.compile (u "site.py*"))
    with [py_pylint.Char 115; py_pylint.Char 105; py_pylint.Char 116;
          py_pylint.Char 101; py_pylint.Dot; py_pylint.Char 112;
          py_pylint.StarChar 121]%N.
  split.
  - destruct f as [|c0 [|c1 [|c2 [|c3 [|c4 [|c5 rest]]]]]];
      cbn [py_pylint.matches]; rewrite ?andb_false_r; try discriminate.
    rewrite !andb_true_iff, !N.eqb_eq. unfold py_pylint.dot_matches.
    rewrite negb_true_iff, N.eqb_neq.
    intros (<- & <- & <- & <- & Hc & <- & _).
    exists c4, rest. split; [reflexivity | assumption].
  - intros (c & rest & -> & Hc).
    cbn [u map list_ascii_of_string app py_pylint.matches N_of_ascii].
    apply N.eqb_neq in Hc. unfold py_pylint.dot_matches. rewrite Hc.
    destruct rest; reflexivity.
Qed.

Example pylint_ignores_site_packages :
  py_pylint.ignore (u "site.py") = true /\
  py_pylint.ignore (u "site-packages/pylint/lint.py") = true /\
  py_pylint.ignore (u "sitecustomize.py") = false.
Proof. repeat split; vm_compute; reflexivity. Qed.

(** ** What the allowlist covers *)

Lemma glob_literal_prefix (w : str) (q : list fnmatch.atom) (text : str) :
  glob_matches (map fnmatch.Literal w ++ q) text ->
  exists post, text = w ++ post.
Proof.
  revert text. induction w as [|c w IH]; intros text; cbn [map app].
  - intros _. exists text. reflexivity.
  - intros H. inversion H as [|c' p s Hs| | |]; subst.
    destruct (IH s Hs) as [post ->]. exists post. reflexivity.
Qed.

Lemma glob_literal_infix (w : str) (q P : list fnmatch.atom) (text : str) :
  glob_matches P text ->
  forall p, P = p ++ map fnmatch.Literal w ++ q ->
  exists pre post, text = pre ++ w ++ post.
Proof.
  induction 1 as [|c P s Hs IH|c P s Hs IH|P s Hs IH|c P s Hs IH]; intros p Heq.
  - destruct p; [|discriminate]. destruct w; [|discriminate].
    exists [], []. reflexivity.
  - destruct p as [|a p].
    + destruct (glob_literal_prefix w q (c :: s)) as [post Hpost].
      * cbn [app] in Heq. rewrite <- Heq. constructor. assumption.
      * exists [], post. assumption.
    + injection Heq as _ Heq. destruct (IH p Heq) as (pre & post & ->).
      exists (c :: pre), post. reflexivity.
  - destruct p as [|a p].
    + destruct w; [|discriminate]. exists [], (c :: s). reflexivity.
    + injection Heq as _ Heq. destruct (IH p Heq) as (pre & post & ->).
      exists (c :: pre), post. reflexivity.
  - destruct p as [|a p].
    + destruct w; [|discriminate]. exists [], s. reflexivity.
    + injection Heq as _ Heq. apply (IH p Heq).
  - destruct (IH p Heq) as (pre & post & ->).
    exists (c :: pre), post. reflexivity.
Qed.

Lemma allowlist_patterns_versioned (pat : str) :
  In pat ALLOW_UNRESOLVED ->
  exists p,
    fnmatch.translate pat
    = p ++ map fnmatch.Literal (u ".so.") ++ [fnmatch.AnyString].
Proof.
  intros Hin.
  exists (firstn (List.length pat - 5) (fnmatch.translate pat)).
  unfold ALLOW_UNRESOLVED in Hin. cbn [map] in Hin.
  repeat (destruct Hin as [<-|Hin]; [vm_compute; reflexivity|]).
  destruct Hin.
Qed.

(** X17: the allowlist exempts versioned names only.  A name that
    [should_be_resolved] lets go decodes to a text that holds [.so.]; so a
    bare name without it, such as an unversioned [libm.so], always has to
    be found under the file's search paths. *)
Theorem allowlist_needs_version_suffix (name : bytes) :
  should_be_resolved name = ret false ->
  exists text pre post,
    utf8.decode name = inr text /\ text = pre ++ u ".so." ++ post.
Proof.
  intros H. rewrite should_be_resolved_wanted in H. apply ret_inj in H.
  unfold wanted in H. unfold utf8.decode.
  destruct (utf8.decode_opt name) as [text|]; [|discriminate].
  apply negb_false_iff, regex_match_allowlisted in H.
  destruct H as (pat & Hin & Hm).
  destruct (allowlist_patterns_versioned pat Hin) as [p Hp].
  destruct (glob_literal_infix (u ".so.") [fnmatch.AnyString] _ text Hm p Hp)
    as (pre & post & ->).
  exists (pre ++ u ".so." ++ post), pre, post. auto.
Qed.

Lemma allowlist_needs_version_suffix_witness :
  exists text pre post,
    utf8.decode (b "ld-linux-x86-64.so.2") = inr text /\
    text = pre ++ u ".so." ++ post.
Proof.
  apply (allowlist_needs_version_suffix (b "ld-linux-x86-64.so.2")).
  vm_compute. reflexivity.
Defined.

(** ** Repeated needed entries *)

Lemma dict_keys_set_bytes (d : dict bytes bytes) (k v k' : bytes) :
  In k' (dict_keys (dict_set bytes_eqb d k v)) -> k' = k \/ In k' (dict_keys d).
Proof.
  induction d as [|[k0 v0] d IH]; simpl.
  - intuition.
  - destruct (bytes_eqb k0 k) eqn:E; simpl.
    + intuition.
    + intros [H|H]; [tauto|]. destruct (IH H); tauto.
Qed.

Lemma dict_set_NoDup (d : dict bytes bytes) (k v : bytes) :
  NoDup (dict_keys d) -> NoDup (dict_keys (dict_set bytes_eqb d k v)).
Proof.
  induction d as [|[k0 v0] d IH]; simpl; intros H.
  - constructor; [intros [] | constructor].
  - destruct (bytes_eqb k0 k) eqn:E; simpl; [assumption|].
    inversion H as [|x l Hnin Hnd]; subst. constructor.
    + intros Hin. apply dict_keys_set_bytes in Hin. destruct Hin as [->|Hin].
      * rewrite bytes_eqb_refl in E. discriminate.
      * contradiction.
    + apply IH. assumption.
Qed.

Lemma searched_NoDup (env : Env) (parsed_elf : ElfFile) (rpaths libs : list bytes)
    (res : dict bytes bytes) (unres : list bytes) :
  NoDup (dict_keys res) ->
  NoDup (dict_keys (fst (searched env parsed_elf rpaths libs res unres))).
Proof.
  revert res unres. induction libs as [|lib libs IH]; intros res unres H; simpl.
  - assumption.
  - destruct (wanted lib); simpl; [|apply IH; assumption].
    destruct (first_usable env parsed_elf rpaths lib); apply IH;
      [apply dict_set_NoDup|]; assumption.
Qed.

Lemma checked_NoDup (env : Env) (parsed_elf : ElfFile) (libs : list bytes)
    (res : dict bytes bytes) (unres : list bytes) :
  NoDup (dict_keys res) ->
  NoDup (dict_keys (fst (checked env parsed_elf libs res unres))).
Proof.
  revert res unres. induction libs as [|lib libs IH]; intros res unres H; simpl.
  - assumption.
  - destruct (usable env parsed_elf lib); apply IH;
      [apply dict_set_NoDup|]; assumption.
Qed.

Lemma count_occ_filter (f : bytes -> bool) (l : list bytes) (x : bytes) :
  count_occ bytes_dec (filter f l) x
  = if f x then count_occ bytes_dec l x else 0.
Proof.
  induction l as [|y l IH]; simpl.
  - destruct (f x); reflexivity.
  - destruct (f y) eqn:Ey; simpl; destruct (bytes_dec y x) as [->|Hne].
    + rewrite IH, Ey. reflexivity.
    + exact IH.
    + rewrite IH. destruct (f x); [discriminate | reflexivity].
    + exact IH.
Qed.

(** X18: a name needed more than once is kept once in [resolved], whose
    keys never repeat, while [unresolved] has it as often as the needed
    entries do: a library that fails is reported once per occurrence. *)
Theorem repeated_entries (env : Env) (parsed_elf : ElfFile) (origin : bytes) :
  well_behaved env ->
  exists log problem,
    resolve_needed env parsed_elf origin = (log, inr problem) /\
    NoDup (dict_keys (resolved problem)) /\
    forall lib,
      In lib (unresolved problem) ->
      count_occ bytes_dec (unresolved problem) lib
      = count_occ bytes_dec (dt_needed_strs parsed_elf) lib.
Proof.
  intros Hwb.
  exists (map Open (probed_paths env parsed_elf origin)),
         (problem_of env parsed_elf origin).
  split; [apply resolve_needed_pure; assumption|].
  split.
  - unfold problem_of.
    pose proof (searched_NoDup env parsed_elf (absolute_rpaths_of parsed_elf origin)
                  (search_libs_of parsed_elf) [] (relative_direct_libs_of parsed_elf)
                  (NoDup_nil _)) as Hs.
    destruct (searched _ _ _ _ _ _) as [res unres]. simpl in Hs.
    pose proof (checked_NoDup env parsed_elf (direct_libs_of parsed_elf) res unres Hs)
      as Hc.
    destruct (checked _ _ _ _ _) as [res' unres']. exact Hc.
  - intros lib Hin.
    apply (count_occ_In bytes_dec) in Hin. revert Hin.
    rewrite problem_of_unresolved, !count_occ_app.
    unfold relative_direct_libs_of, failed_search_libs, failed_direct_libs,
      direct_libs_of, search_libs_of.
    rewrite !count_occ_filter.
    destruct (contains_byte sep lib), (os_path.isabs lib),
      (usable env parsed_elf lib),
      (search_fails env parsed_elf (absolute_rpaths_of parsed_elf origin) lib);
      cbn [negb]; lia.
Qed.

Lemma repeated_entries_witness :
  exists log problem,
    resolve_needed Fixture.repeated_env Fixture.repeated_app Fixture.app_origin
    = (log, inr problem) /\
    NoDup (dict_keys (resolved problem)) /\
    forall lib,
      In lib (unresolved problem) ->
      count_occ bytes_dec (unresolved problem) lib
      = count_occ bytes_dec (dt_needed_strs Fixture.repeated_app) lib.
Proof.
  apply (repeated_entries Fixture.repeated_env Fixture.repeated_app Fixture.app_origin).
  apply fixture_well_behaved.
Defined.

Example repeated_entries_run :
  outcome (resolve_needed Fixture.repeated_env Fixture.repeated_app Fixture.app_origin)
  = inr {| resolved := [(b "libx.so", b "/A/libx.so")];
           unresolved := [b "libmissing.so"; b "libmissing.so";
                          b "/abs/missing.so"; b "/abs/missing.so"];
           relative_rpaths := [] |}.
Proof. vm_compute. reflexivity. Qed.
